(** * Ontology-Graph: the graph canvas, its host application and the
      generation service

    A shallow embedding of [types.ts], of the graph canvas component
    (reconciliation of a new snapshot, simulation set-up, click routing, drag
    handlers, [getGraph]), of [App.tsx] ([handleGenerate], [handleSave]) and of
    [services/geminiService.ts] ([generateOntology]).

    JavaScript objects are mutable and shared: the node objects of the working
    copy are the very objects the simulation moves, and the link force rewrites
    the edge objects in place.  Nodes and edges therefore live in a store and
    are named by their address; a graph is a pair of address arrays. *)

From Stdlib Require Import ZArith QArith.
From stdpp Require Import gmap strings list pretty.

Local Close Scope Q_scope.
Local Open Scope nat_scope.

(** ** Numbers

    A JavaScript number is an IEEE double.  Nothing below relies on a law of
    arithmetic, so the development is parametric in the number type and its
    operations.  [NaN] is what arithmetic on [undefined] yields. *)

Class JSNumber := {
  num : Type;
  NaN : num;
  lit : Q -> num;              (* a decimal literal of the source text *)
  nadd : num -> num -> num;
  nsub : num -> num -> num;
  nmul : num -> num -> num;
  ndiv : num -> num -> num;
  nlt : num -> num -> bool;
  nisnan : num -> bool;
}.

(** The rationals carry every operation; they serve as the concrete number
    type wherever a definition is run on an example (no example computes
    with an absent coordinate, so the value standing for [NaN] is never
    looked at). *)
#[export] Instance QNumber : JSNumber := {|
  num := Q;
  NaN := Qmake 0 1;
  lit q := q;
  nadd := Qplus;
  nsub := Qminus;
  nmul := Qmult;
  ndiv := Qdiv;
  nlt a b := match Qcompare a b with Lt => true | _ => false end;
  nisnan _ := false;
|}.

(** ** types.ts *)

Module Types.
Section Types.
Context `{JSNumber}.

(** Addresses of node objects and of edge objects in the store. *)
Definition NodeRef := nat.
Definition EdgeRef := nat.

(** [type: 'class' | 'instance' | 'literal' | 'concept'] *)
Inductive NodeType := TClass | TInstance | TLiteral | TConcept.

(** [fx?: number | null]: absent, [null], or a number. *)
Inductive Pin := PinUndefined | PinNull | PinAt (v : num).

(** [interface OntologyNode]; an optional field is [None] when it is absent
    or [undefined]. *)
Record OntologyNode := mkNode {
  id : string;
  label : string;
  type : NodeType;
  description : option string;
  x : option num;
  y : option num;
  vx : option num;
  vy : option num;
  fx : Pin;
  fy : Pin;
}.

(** [source: string | OntologyNode]: a plain node id, or a reference to a
    node object ("d3 modifies this to be the node object"). *)
Inductive Endpoint := EpId (s : string) | EpNode (r : NodeRef).

(** [interface OntologyEdge] *)
Record OntologyEdge := mkEdge {
  eid : string;
  source : Endpoint;
  target : Endpoint;
  elabel : string;
}.

(** [interface OntologyGraph]: the two arrays hold object references. *)
Record OntologyGraph := mkGraph {
  nodes : list NodeRef;
  edges : list EdgeRef;
}.

(** The object store. *)
Record Heap := mkHeap {
  hnodes : list OntologyNode;
  hedges : list OntologyEdge;
}.

Definition empty_heap : Heap := mkHeap [] [].

(** A reference held by a running program always names a live object; the
    placeholders below are what a lookup outside the store yields, which no
    execution performs. *)
Definition no_node : OntologyNode :=
  mkNode "" "" TConcept None None None None None PinUndefined PinUndefined.
Definition no_edge : OntologyEdge := mkEdge "" (EpId "") (EpId "") "".

Definition node_at (h : Heap) (r : NodeRef) : OntologyNode :=
  default no_node (hnodes h !! r).
Definition edge_at (h : Heap) (r : EdgeRef) : OntologyEdge :=
  default no_edge (hedges h !! r).

(** Writing a whole object back ([<[r:=n]>] leaves the store alone when [r]
    is outside it). *)
Definition put_node (h : Heap) (r : NodeRef) (n : OntologyNode) : Heap :=
  mkHeap (<[r := n]> (hnodes h)) (hedges h).
Definition put_edge (h : Heap) (r : EdgeRef) (e : OntologyEdge) : Heap :=
  mkHeap (hnodes h) (<[r := e]> (hedges h)).

(** Creating an object. *)
Definition alloc_node (h : Heap) (n : OntologyNode) : Heap * NodeRef :=
  (mkHeap (hnodes h ++ [n]) (hedges h), length (hnodes h)).
Definition alloc_edge (h : Heap) (e : OntologyEdge) : Heap * EdgeRef :=
  (mkHeap (hnodes h) (hedges h ++ [e]), length (hedges h)).

(** Field assignments [n.x = v], ... *)
Definition set_x (v : option num) (n : OntologyNode) : OntologyNode :=
  mkNode (id n) (label n) (type n) (description n) v (y n) (vx n) (vy n) (fx n) (fy n).
Definition set_y (v : option num) (n : OntologyNode) : OntologyNode :=
  mkNode (id n) (label n) (type n) (description n) (x n) v (vx n) (vy n) (fx n) (fy n).
Definition set_vx (v : option num) (n : OntologyNode) : OntologyNode :=
  mkNode (id n) (label n) (type n) (description n) (x n) (y n) v (vy n) (fx n) (fy n).
Definition set_vy (v : option num) (n : OntologyNode) : OntologyNode :=
  mkNode (id n) (label n) (type n) (description n) (x n) (y n) (vx n) v (fx n) (fy n).
Definition set_fx (p : Pin) (n : OntologyNode) : OntologyNode :=
  mkNode (id n) (label n) (type n) (description n) (x n) (y n) (vx n) (vy n) p (fy n).
Definition set_fy (p : Pin) (n : OntologyNode) : OntologyNode :=
  mkNode (id n) (label n) (type n) (description n) (x n) (y n) (vx n) (vy n) (fx n) p.

Definition set_source (p : Endpoint) (e : OntologyEdge) : OntologyEdge :=
  mkEdge (eid e) p (target e) (elabel e).
Definition set_target (p : Endpoint) (e : OntologyEdge) : OntologyEdge :=
  mkEdge (eid e) (source e) p (elabel e).

(** [typeof p === 'string'] on an endpoint. *)
Definition is_id_string (p : Endpoint) : bool :=
  match p with EpId _ => true | EpNode _ => false end.

(** [new Map(ns.map(n => [n.id, n]))]: the table from id to node object; a
    later node with the same id replaces an earlier one. *)
Definition map_by_id (h : Heap) (ns : list NodeRef) : gmap string NodeRef :=
  foldl (λ m r, <[id (node_at h r) := r]> m) ∅ ns.

(** One store extends another when every object of the first is still there,
    unchanged. *)
Definition heap_extends (h h' : Heap) : Prop :=
  (∀ r, r < length (hnodes h) → hnodes h' !! r = hnodes h !! r) ∧
  (∀ r, r < length (hedges h) → hedges h' !! r = hedges h !! r).

End Types.
End Types.
Export Types.

(** ** [JSON.parse(JSON.stringify(graph))]

    Serialisation reads the graph through the store into a tree of values: a
    node array, and an edge array in which an endpoint is either a string or
    the nested object of the node it refers to.  Parsing builds fresh objects
    from that tree.  The graphs the component is given hold JSON values (they
    come out of [JSON.parse] or are built by the handlers of [App]), so the
    fields of a node come back as they went in: an absent field stays absent,
    [null] stays [null], a finite number stays that number. *)

Module Json.
Section Json.
Context `{JSNumber}.

Inductive JEndpoint := JStr (s : string) | JObj (n : OntologyNode).

Record JEdge := mkJEdge {
  jid : string;
  jsource : JEndpoint;
  jtarget : JEndpoint;
  jlabel : string;
}.

Record JGraph := mkJGraph {
  jnodes : list OntologyNode;
  jedges : list JEdge;
}.

Definition stringify_endpoint (h : Heap) (p : Endpoint) : JEndpoint :=
  match p with
  | EpId s => JStr s
  | EpNode r => JObj (node_at h r)
  end.

Definition stringify_edge (h : Heap) (e : OntologyEdge) : JEdge :=
  mkJEdge (eid e) (stringify_endpoint h (source e))
          (stringify_endpoint h (target e)) (elabel e).

Definition stringify (h : Heap) (g : OntologyGraph) : JGraph :=
  mkJGraph (node_at h <$> nodes g) (stringify_edge h ∘ edge_at h <$> edges g).

Definition parse_endpoint (h : Heap) (p : JEndpoint) : Heap * Endpoint :=
  match p with
  | JStr s => (h, EpId s)
  | JObj n => let '(h', r) := alloc_node h n in (h', EpNode r)
  end.

Fixpoint parse_nodes (h : Heap) (ns : list OntologyNode) : Heap * list NodeRef :=
  match ns with
  | [] => (h, [])
  | n :: ns' =>
      let '(h1, r) := alloc_node h n in
      let '(h2, rs) := parse_nodes h1 ns' in
      (h2, r :: rs)
  end.

Fixpoint parse_edges (h : Heap) (es : list JEdge) : Heap * list EdgeRef :=
  match es with
  | [] => (h, [])
  | e :: es' =>
      let '(h1, s) := parse_endpoint h (jsource e) in
      let '(h2, t) := parse_endpoint h1 (jtarget e) in
      let '(h3, r) := alloc_edge h2 (mkEdge (jid e) s t (jlabel e)) in
      let '(h4, rs) := parse_edges h3 es' in
      (h4, r :: rs)
  end.

Definition parse (h : Heap) (j : JGraph) : Heap * OntologyGraph :=
  let '(h1, ns) := parse_nodes h (jnodes j) in
  let '(h2, es) := parse_edges h1 (jedges j) in
  (h2, mkGraph ns es).

Definition deep_copy (h : Heap) (g : OntologyGraph) : Heap * OntologyGraph :=
  parse h (stringify h g).

End Json.
End Json.

(** ** The force engine (d3-force)

    The engine is an external library; its code is not part of the sources.
    The component uses five things of it: creating a simulation over the node
    array, registering the link force over the edge array, the tick, the pin
    fields it honours, and [alphaTarget]/[restart]/[stop]. *)

Module D3.
Section D3.
Context `{JSNumber}.

(** The constants the component configures its forces with:
    [distance(150)], [strength(-400)], [forceCenter(width / 2, height / 2)],
    [radius(40)]. *)
Record ForceConfig := mkForceConfig {
  linkDistance : num;
  chargeStrength : num;
  centerX : num;
  centerY : num;
  collideRadius : num;
}.

(** Modelled from the spec: the numerical part of the force engine, which is
    not under src/.  "Forces composed (additive accelerations per tick)": the
    net effect of the link, many-body, centering and collision forces on the
    geometry of the nodes is [forces]; the engine's default start position of
    the [i]-th node ("a deterministic default") is [initial_position]; the
    decay constants are the engine's. *)
Class Physics := {
  initial_position : nat -> num * num;
  velocityDecay : num;
  alphaDecay : num;
  alphaMin : num;
  forces : ForceConfig -> num -> Heap -> list EdgeRef -> list NodeRef -> list OntologyNode;
}.

Context `{Physics}.

Record Simulation := mkSimulation {
  sim_nodes : list NodeRef;
  sim_links : list EdgeRef;
  sim_config : ForceConfig;
  alpha : num;
  alphaTarget : num;
  running : bool;
}.

Inductive Error := NodeNotFound (nodeId : string).

Definition zero : num := lit (Qmake 0 1).
Definition to_num (v : option num) : num := default NaN v.

(** [isNaN(v)] on an optional field: [undefined] is not a number. *)
Definition isNaN (v : option num) : bool :=
  match v with Some a => nisnan a | None => true end.

(** [p != null] *)
Definition pin_value (p : Pin) : option num :=
  match p with PinAt v => Some v | _ => None end.

(** Modelled from the spec: node initialisation when a simulation is created
    over a node array (engine code, not under src/).  "position (x, y - absent
    until first simulated)", "the simulation engine will initialize them", "a
    pinned node's reported position is the pin value": a pinned coordinate is
    taken from the pin, a node without a position gets the engine's default,
    a node without a velocity starts at rest. *)
Definition initialize_node (i : nat) (n : OntologyNode) : OntologyNode :=
  let n1 := match pin_value (fx n) with Some v => set_x (Some v) n | None => n end in
  let n2 := match pin_value (fy n1) with Some v => set_y (Some v) n1 | None => n1 end in
  let n3 := if isNaN (x n2) || isNaN (y n2)
            then set_y (Some (initial_position i).2) (set_x (Some (initial_position i).1) n2)
            else n2 in
  if isNaN (vx n3) || isNaN (vy n3)
  then set_vy (Some zero) (set_vx (Some zero) n3)
  else n3.

Fixpoint initialize_nodes (h : Heap) (i : nat) (rs : list NodeRef) : Heap :=
  match rs with
  | [] => h
  | r :: rs' => initialize_nodes (put_node h r (initialize_node i (node_at h r))) (S i) rs'
  end.

(** Modelled from the spec: [forceSimulation(nodes)] (engine code, not under
    src/).  The simulation owns the node array it is given (the same array,
    the same objects), starts hot and ticking. *)
Definition forceSimulation (h : Heap) (ns : list NodeRef) (cfg : ForceConfig)
  : Heap * Simulation :=
  (initialize_nodes h 0 ns,
   mkSimulation ns [] cfg (lit (Qmake 1 1)) zero true).

(** Modelled from the spec: resolution of one endpoint by the link force
    (engine code, not under src/).  "an edge's endpoint fields are transiently
    resolved to references to the live node records (not copies)"; "if the
    input graph has edges referencing missing node ids, the engine fails
    fast".  An endpoint that already is an object is left as it is. *)
Definition resolve_endpoint (nodeById : gmap string NodeRef) (p : Endpoint)
  : Error + Endpoint :=
  match p with
  | EpNode r => inr (EpNode r)
  | EpId s =>
      match nodeById !! s with
      | Some r => inr (EpNode r)
      | None => inl (NodeNotFound s)
      end
  end.

(** Modelled from the spec: initialisation of the link force over the edge
    array (engine code, not under src/).  The edge objects are rewritten in
    place, one after the other, source first; the first endpoint that cannot
    be resolved raises, and the edges before it stay rewritten. *)
Fixpoint resolve_links (h : Heap) (nodeById : gmap string NodeRef)
  (ls : list EdgeRef) : Heap * option Error :=
  match ls with
  | [] => (h, None)
  | l :: ls' =>
      match resolve_endpoint nodeById (source (edge_at h l)) with
      | inl err => (h, Some err)
      | inr s =>
          let h1 := put_edge h l (set_source s (edge_at h l)) in
          match resolve_endpoint nodeById (target (edge_at h1 l)) with
          | inl err => (h1, Some err)
          | inr t =>
              resolve_links (put_edge h1 l (set_target t (edge_at h1 l))) nodeById ls'
          end
      end
  end.

(** [simulation.force("link", forceLink(links).id(d => d.id))]: the table is
    keyed by the accessor the component passes, the node's [id]. *)
Definition force_link (h : Heap) (sim : Simulation) (ls : list EdgeRef)
  : Heap * (Error + Simulation) :=
  match resolve_links h (map_by_id h (sim_nodes sim)) ls with
  | (h', Some err) => (h', inl err)
  | (h', None) =>
      (h', inr (mkSimulation (sim_nodes sim) ls (sim_config sim)
                             (alpha sim) (alphaTarget sim) (running sim)))
  end.

(** A force writes the geometry of a node (position and velocity), nothing
    else. *)
Definition write_geometry (v n : OntologyNode) : OntologyNode :=
  set_vy (vy v) (set_vx (vx v) (set_y (y v) (set_x (x v) n))).

Definition apply_forces (h : Heap) (sim : Simulation) (a : num) : Heap :=
  foldl (λ h' rv, put_node h' rv.1 (write_geometry rv.2 (node_at h' rv.1))) h
        (zip (sim_nodes sim)
             (forces (sim_config sim) a h (sim_links sim) (sim_nodes sim))).

(** Modelled from the spec: integration of one node at the end of a tick
    (engine code, not under src/).  "integrate velocity then position"; "an
    optional pin (fx, fy - when set, position is fixed and the simulation
    does not move the node)"; "a pinned node's reported position is the pin
    value, not an integrated value". *)
Definition integrate_x (n : OntologyNode) : OntologyNode :=
  match pin_value (fx n) with
  | Some v => set_vx (Some zero) (set_x (Some v) n)
  | None =>
      let v' := nmul (to_num (vx n)) velocityDecay in
      set_x (Some (nadd (to_num (x n)) v')) (set_vx (Some v') n)
  end.

Definition integrate_y (n : OntologyNode) : OntologyNode :=
  match pin_value (fy n) with
  | Some v => set_vy (Some zero) (set_y (Some v) n)
  | None =>
      let v' := nmul (to_num (vy n)) velocityDecay in
      set_y (Some (nadd (to_num (y n)) v')) (set_vy (Some v') n)
  end.

Definition integrate (n : OntologyNode) : OntologyNode :=
  integrate_y (integrate_x n).

Definition set_alpha (a : num) (sim : Simulation) : Simulation :=
  mkSimulation (sim_nodes sim) (sim_links sim) (sim_config sim)
               a (alphaTarget sim) (running sim).

(** Modelled from the spec: the decay of alpha (engine code, not under
    src/).  "decay a global alpha (temperature) toward zero", zero being the
    alpha target unless a drag raised it. *)
Definition next_alpha (sim : Simulation) : num :=
  nadd (alpha sim) (nmul (nsub (alphaTarget sim) (alpha sim)) alphaDecay).

(** Modelled from the spec: one tick (engine code, not under src/).  "Per
    tick: compute net force per node, integrate velocity then position,
    decay a global alpha". *)
Definition tick (h : Heap) (sim : Simulation) : Heap * Simulation :=
  let a := next_alpha sim in
  let h1 := apply_forces h sim a in
  (foldl (λ h' r, put_node h' r (integrate (node_at h' r))) h1 (sim_nodes sim),
   set_alpha a sim).

Fixpoint ticks (n : nat) (h : Heap) (sim : Simulation) : Heap * Simulation :=
  match n with
  | O => (h, sim)
  | S k => let '(h', sim') := tick h sim in ticks k h' sim'
  end.

(** Modelled from the spec: [alphaTarget(v)], [restart()] and [stop()]
    (engine code, not under src/).  "[restart(targetAlpha)] - re-heats the
    simulation"; "[stop()] - halts ticking". *)
Definition set_alphaTarget (v : num) (sim : Simulation) : Simulation :=
  mkSimulation (sim_nodes sim) (sim_links sim) (sim_config sim)
               (alpha sim) v (running sim).

Definition restart (sim : Simulation) : Simulation :=
  mkSimulation (sim_nodes sim) (sim_links sim) (sim_config sim)
               (alpha sim) (alphaTarget sim) true.

Definition stop (sim : Simulation) : Simulation :=
  mkSimulation (sim_nodes sim) (sim_links sim) (sim_config sim)
               (alpha sim) (alphaTarget sim) false.

End D3.
End D3.

(** ** The graph canvas component *)

Module GraphCanvas.
Section GraphCanvas.
Context `{JSNumber} `{!D3.Physics}.
Import D3.

(** What the render effect has put under the [svg] element. *)
Inductive SvgElement :=
  | SvgGroup
  | SvgDefs
  | SvgLine (d : EdgeRef)
  | SvgEdgeLabel (d : EdgeRef)
  | SvgNode (d : NodeRef).

(** The component instance: the [graph] prop, the [activeGraph] state,
    [simulationRef.current], whether [svgRef] and [wrapperRef] are attached,
    the size of the wrapper and the drawn scene. *)
Record Canvas := mkCanvas {
  graph : OntologyGraph;
  activeGraph : OntologyGraph;
  simulationRef : option Simulation;
  attached : bool;
  clientWidth : num;
  clientHeight : num;
  scene : list SvgElement;
}.

(** [useImperativeHandle(ref, () => ({ getGraph }))] *)
Definition getGraph (st : Canvas) : OntologyGraph :=
  match simulationRef st with
  | Some simulation => mkGraph (sim_nodes simulation) (edges (activeGraph st))
  | None => activeGraph st
  end.

(** The body of [if (existing) { ... }]. *)
Definition copy_geometry (existing n : OntologyNode) : OntologyNode :=
  let n1 := set_x (x existing) n in
  let n2 := set_y (y existing) n1 in
  let n3 := match vx existing with Some _ => set_vx (vx existing) n2 | None => n2 end in
  match vy existing with Some _ => set_vy (vy existing) n3 | None => n3 end.

(** One round of [newGraphData.nodes.forEach]. *)
Definition reconcile_node (currentNodesMap : gmap string NodeRef) (h : Heap)
  (n : NodeRef) : Heap :=
  match currentNodesMap !! id (node_at h n) with
  | Some existing => put_node h n (copy_geometry (node_at h existing) (node_at h n))
  | None => h
  end.

(** The first effect, up to [setActiveGraph]. *)
Definition reconcile (h : Heap) (simulation : option Simulation)
  (g : OntologyGraph) : Heap * OntologyGraph :=
  let '(h1, newGraphData) := Json.deep_copy h g in
  match simulation with
  | Some sim =>
      let currentNodesMap := map_by_id h1 (sim_nodes sim) in
      (foldl (reconcile_node currentNodesMap) h1 (nodes newGraphData), newGraphData)
  | None => (h1, newGraphData)
  end.

Definition set_activeGraph (g : OntologyGraph) (st : Canvas) : Canvas :=
  mkCanvas (graph st) g (simulationRef st) (attached st)
           (clientWidth st) (clientHeight st) (scene st).

Definition set_graph (g : OntologyGraph) (st : Canvas) : Canvas :=
  mkCanvas g (activeGraph st) (simulationRef st) (attached st)
           (clientWidth st) (clientHeight st) (scene st).

(** [useEffect(() => { ... }, [graph])] *)
Definition reconcile_effect (h : Heap) (st : Canvas) : Heap * Canvas :=
  let '(h', newGraphData) := reconcile h (simulationRef st) (graph st) in
  (h', set_activeGraph newGraphData st).

(** How an effect ends.  When it throws, the simulation it had created is
    in no ref and no clean-up knows of it: [stray] is that simulation. *)
Inductive EffectResult :=
  | Completed (h : Heap) (st : Canvas)
  | Threw (err : Error) (h : Heap) (st : Canvas) (stray : Simulation).

(** The error an effect ended with, if any, the store and component it left
    behind, and the simulation it left to itself. *)
Definition thrown (r : EffectResult) : option Error :=
  match r with Completed _ _ => None | Threw err _ _ _ => Some err end.

Definition outcome (r : EffectResult) : Heap * Canvas :=
  match r with Completed h st => (h, st) | Threw _ h st _ => (h, st) end.

Definition stray_simulation (r : EffectResult) : option Simulation :=
  match r with Completed _ _ => None | Threw _ _ _ stray => Some stray end.

Definition force_config (st : Canvas) : ForceConfig :=
  mkForceConfig (lit (Qmake 150 1)) (lit (Qmake (-400) 1))
                (ndiv (clientWidth st) (lit (Qmake 2 1)))
                (ndiv (clientHeight st) (lit (Qmake 2 1)))
                (lit (Qmake 40 1)).

(** The scene once everything is drawn: the zoom group and the marker
    definitions, then a line and a label per edge and a group per node. *)
Definition drawn_scene (g : OntologyGraph) : list SvgElement :=
  [SvgGroup; SvgDefs] ++ (SvgLine <$> edges g) ++ (SvgEdgeLabel <$> edges g)
  ++ (SvgNode <$> nodes g).

(** [useEffect(() => { ... }, [activeGraph])]: the previous scene is removed
    and the zoom group appended, then the simulation is created (it runs
    from then on) and the link force registered on it, which can raise; the
    simulation is stored in [simulationRef] and the scene is drawn.  When
    the link force raises, the effect ends there: nothing has been stored in
    [simulationRef], nothing drawn, and no clean-up is returned, so the
    simulation just created is never stopped. *)
Definition render_effect (h : Heap) (st : Canvas) : EffectResult :=
  if negb (attached st) then Completed h st
  else
    let '(h1, simulation) :=
      forceSimulation h (nodes (activeGraph st)) (force_config st) in
    match force_link h1 simulation (edges (activeGraph st)) with
    | (h2, inl err) =>
        Threw err h2
              (mkCanvas (graph st) (activeGraph st) (simulationRef st)
                        (attached st) (clientWidth st) (clientHeight st)
                        [SvgGroup])
              simulation
    | (h2, inr sim) =>
        Completed h2
              (mkCanvas (graph st) (activeGraph st) (Some sim)
                        (attached st) (clientWidth st) (clientHeight st)
                        (drawn_scene (activeGraph st)))
    end.

(** The clean-up of the render effect: [simulation.stop()]. *)
Definition cleanup (st : Canvas) : Canvas :=
  mkCanvas (graph st) (activeGraph st) (stop <$> simulationRef st) (attached st)
           (clientWidth st) (clientHeight st) (scene st).

(** The component once React has taken the tree down: the refs are detached
    and what was under the [svg] element is gone with it. *)
Definition unmounted (st : Canvas) : Canvas :=
  mkCanvas (graph st) (activeGraph st) (simulationRef st) false
           (clientWidth st) (clientHeight st) [].

(** Nothing in the sources catches an error thrown by an effect (there is no
    error boundary), so React unmounts the tree.  The clean-up of the
    previous run of the render effect has run before the effect was run
    again, and the run that threw returned none: the unmount stops
    nothing. *)
Definition unmount_on_error (r : EffectResult) : EffectResult :=
  match r with
  | Completed h st => Completed h st
  | Threw err h st stray => Threw err h (unmounted st) stray
  end.

(** A new [graph] prop: the first effect runs, the state change re-renders,
    the old render effect is cleaned up and the render effect runs again. *)
Definition update (h : Heap) (st : Canvas) (g : OntologyGraph) : EffectResult :=
  let '(h1, st1) := reconcile_effect h (set_graph g st) in
  unmount_on_error (render_effect h1 (cleanup st1)).

(** Mounting: [useState(graph)] starts [activeGraph] at the prop itself; both
    effects run against that first render, and the state set by the first one
    re-renders. *)
Definition mount (h : Heap) (g : OntologyGraph) (w ht : num) : EffectResult :=
  let st0 := mkCanvas g g None true w ht [] in
  let '(h1, newGraphData) := reconcile h (simulationRef st0) (graph st0) in
  match render_effect h1 st0 with
  | Threw err h2 st stray => Threw err h2 (unmounted st) stray
  | Completed h2 st1 =>
      unmount_on_error (render_effect h2 (cleanup (set_activeGraph newGraphData st1)))
  end.

(** *** Click routing *)

Inductive Callback :=
  | onNodeSelect (node : option NodeRef)
  | onEdgeSelect (edge : option EdgeRef).

Record ClickEvent := mkClick { propagationStopped : bool }.

Definition stopPropagation (event : ClickEvent) : ClickEvent := mkClick true.

(** The handler of a line. *)
Definition edge_click (event : ClickEvent) (d : EdgeRef) : ClickEvent * list Callback :=
  (stopPropagation event, [onEdgeSelect (Some d); onNodeSelect None]).

(** The handler of a node circle. *)
Definition node_click (event : ClickEvent) (d : NodeRef) : ClickEvent * list Callback :=
  (stopPropagation event, [onNodeSelect (Some d); onEdgeSelect None]).

(** The handler of the [svg] element. *)
Definition background_click : list Callback := [onNodeSelect None; onEdgeSelect None].

Inductive ClickTarget := OnNode (d : NodeRef) | OnEdge (d : EdgeRef) | OnBackground.

(** A click runs the handler of the shape under the pointer and then, unless
    propagation was stopped, bubbles to the handler of the [svg] element. *)
Definition bubble (r : ClickEvent * list Callback) : list Callback :=
  if propagationStopped r.1 then r.2 else r.2 ++ background_click.

Definition click (t : ClickTarget) : list Callback :=
  match t with
  | OnNode d => bubble (node_click (mkClick false) d)
  | OnEdge d => bubble (edge_click (mkClick false) d)
  | OnBackground => background_click
  end.

(** *** Drag *)

(** The fields of a drag event the handlers read: [active], the number of
    other drag gestures in progress, and the pointer position. *)
Record DragEvent := mkDrag {
  active : nat;
  ev_x : num;
  ev_y : num;
}.

(** The value [d.fx = d.x] stores. *)
Definition pin_of (v : option num) : Pin :=
  match v with Some a => PinAt a | None => PinUndefined end.

Definition dragstarted (h : Heap) (simulation : Simulation) (event : DragEvent)
  (d : NodeRef) : Heap * Simulation :=
  let simulation' :=
    if Nat.eqb (active event) 0
    then restart (set_alphaTarget (lit (Qmake 3 10)) simulation)
    else simulation in
  let h1 := put_node h d (set_fx (pin_of (x (node_at h d))) (node_at h d)) in
  (put_node h1 d (set_fy (pin_of (y (node_at h1 d))) (node_at h1 d)), simulation').

Definition dragged (h : Heap) (simulation : Simulation) (event : DragEvent)
  (d : NodeRef) : Heap * Simulation :=
  let h1 := put_node h d (set_fx (PinAt (ev_x event)) (node_at h d)) in
  (put_node h1 d (set_fy (PinAt (ev_y event)) (node_at h1 d)), simulation).

Definition dragended (h : Heap) (simulation : Simulation) (event : DragEvent)
  (d : NodeRef) : Heap * Simulation :=
  let simulation' :=
    if Nat.eqb (active event) 0
    then set_alphaTarget (lit (Qmake 0 1)) simulation
    else simulation in
  let h1 := put_node h d (set_fx PinNull (node_at h d)) in
  (put_node h1 d (set_fy PinNull (node_at h1 d)), simulation').

End GraphCanvas.
End GraphCanvas.

(** ** services/geminiService.ts *)

Module GeminiService.
Section GeminiService.
Context `{JSNumber}.

(** A thrown [Error] or a rejection, with its message. *)
Record Error := mkError { message : string }.

(** [JSON.parse(text)] as the function reads it.  The answer is requested
    under [ontologySchema], but nothing checks what comes back against it:
    [data] can be [null], and [data.edges] need not be an array.  The
    function reads two properties of [data], and what it does depends on
    this much of them:
    - [data] is [null]: reading a property of it raises;
    - [data.edges] is missing or falsy ([null], [false], [0], the empty
      string), is an array, or is any other value (a number, a string, an
      object, [true]), which has no [map] method;
    - [data.nodes] is missing or falsy, or is returned as it is.
    A [data] that is not an object (a number, a string, an array) has
    neither property.  What is returned is not looked into: a [data.nodes]
    that is not an array, or array elements that are not nodes and edges,
    would leave the function under the type [OntologyGraph] unchecked.
    Such answers are outside what the types of the program describe; here
    the arrays hold values of the shape the schema requires and the return
    type [Promise<OntologyGraph>] declares. *)
Inductive EdgesField :=
  | EdgesFalsy
  | EdgesArray (es : list Json.JEdge)
  | EdgesOther.

Inductive ParsedData :=
  | DataNull
  | DataValue (data_nodes : option (list OntologyNode)) (data_edges : EdgesField).

(** What the engine refuses to evaluate on line 65. *)
Inductive Refused :=
  | PropertyOfNull (property : string)
  | NotAFunction (method : string).

(** What lies outside the program: the remote model behind
    [ai.models.generateContent] (it rejects, or answers with [response.text],
    which may be missing), [JSON.parse] on the answer, the clock read by
    the [index]-th [Date.now()], and the [TypeError] the engine raises for
    what it refuses (the wording of its message is the engine's). *)
Record Outside := mkOutside {
  generateContent : string -> string -> string -> Error + option string;
  JSON_parse : string -> Error + ParsedData;
  Date_now : nat -> nat;
  TypeError : Refused -> Error;
}.

(** What the function does to the outside, in order. *)
Inductive Effect :=
  | NewGoogleGenAI (apiKey : string)
  | GenerateContent (model : string) (prompt : string)
  | ConsoleError (error : Error).

(** [const apiKey = process.env.API_KEY || ''] *)
Definition apiKey_of (env_API_KEY : option string) : string :=
  match env_API_KEY with
  | Some k => if String.eqb k "" then "" else k
  | None => ""
  end.

Definition set_jid (i : string) (e : Json.JEdge) : Json.JEdge :=
  Json.mkJEdge i (Json.jsource e) (Json.jtarget e) (Json.jlabel e).

(** [`edge-${index}-${Date.now()}`] *)
Definition edge_id (o : Outside) (index : nat) : string :=
  "edge-" +:+ pretty index +:+ "-" +:+ pretty (Date_now o index).

(** [(data.edges || []).map((edge, index) => ({ ...edge, id: ... }))] *)
Definition edgesWithIds (o : Outside) (data : ParsedData) : Error + list Json.JEdge :=
  match data with
  | DataNull => inl (TypeError o (PropertyOfNull "edges"))
  | DataValue _ EdgesFalsy => inr []
  | DataValue _ (EdgesArray es) =>
      inr (imap (λ index edge, set_jid (edge_id o index) edge) es)
  | DataValue _ EdgesOther => inl (TypeError o (NotAFunction "map"))
  end.

(** [data.nodes || []], read once [edgesWithIds] is there: [data] is not
    [null] then. *)
Definition nodes_or_empty (data : ParsedData) : list OntologyNode :=
  match data with
  | DataNull => []
  | DataValue ns _ => default [] ns
  end.

(** [generateOntology]: the effects performed, the store (the graph returned
    is made of fresh objects) and how the promise settles.  Everything from
    the request on is inside [try]: whatever is raised there is logged and
    raised again. *)
Definition generateOntology (o : Outside) (apiKey : string) (prompt : string)
  (h : Heap) : list Effect * Heap * (Error + OntologyGraph) :=
  if String.eqb apiKey ""
  then ([], h,
        inl (mkError "API Key is missing. Please check your environment configuration."))
  else
    let called := [NewGoogleGenAI apiKey; GenerateContent "gemini-2.5-flash" prompt] in
    let rethrow (error : Error) := (called ++ [ConsoleError error], h, inl error) in
    match generateContent o apiKey "gemini-2.5-flash" prompt with
    | inl error => rethrow error
    | inr None => rethrow (mkError "No response from AI")
    | inr (Some text) =>
        if String.eqb text "" then rethrow (mkError "No response from AI")
        else
          match JSON_parse o text with
          | inl error => rethrow error
          | inr data =>
              match edgesWithIds o data with
              | inl error => rethrow error
              | inr es =>
                  let '(h', g) :=
                    Json.parse h (Json.mkJGraph (nodes_or_empty data) es) in
                  (called, h', inr g)
              end
          end
    end.

End GeminiService.
End GeminiService.

(** ** App.tsx *)

Module App.
Section App.
Context `{JSNumber} `{!D3.Physics}.
Import GraphCanvas.

(** The [data] of a save: plain objects built for serialisation. *)
Record SavedGraph := mkSavedGraph {
  saved_nodes : list OntologyNode;
  saved_edges : list OntologyEdge;
}.

(** [interface SavedOntology] *)
Record SavedOntology := mkSaved {
  save_id : string;
  save_name : string;
  timestamp : nat;
  data : SavedGraph;
}.

(** The state of [App], together with what it shows and stores outside
    React: the alerts raised and the value under [LOCAL_STORAGE_KEY]. *)
Record AppState := mkApp {
  graph : OntologyGraph;
  selectedNode : option NodeRef;
  selectedEdge : option EdgeRef;
  isGenerating : bool;
  savedOntologies : list SavedOntology;
  alerts : list string;
  localStorage : option (list SavedOntology);
}.

Inductive Action :=
  | setGraph (g : OntologyGraph)
  | setSelectedNode (n : option NodeRef)
  | setSelectedEdge (e : option EdgeRef)
  | setIsGenerating (b : bool)
  | alert (msg : string).

Definition perform (st : AppState) (a : Action) : AppState :=
  match a with
  | setGraph g =>
      mkApp g (selectedNode st) (selectedEdge st) (isGenerating st)
            (savedOntologies st) (alerts st) (localStorage st)
  | setSelectedNode n =>
      mkApp (graph st) n (selectedEdge st) (isGenerating st)
            (savedOntologies st) (alerts st) (localStorage st)
  | setSelectedEdge e =>
      mkApp (graph st) (selectedNode st) e (isGenerating st)
            (savedOntologies st) (alerts st) (localStorage st)
  | setIsGenerating b =>
      mkApp (graph st) (selectedNode st) (selectedEdge st) b
            (savedOntologies st) (alerts st) (localStorage st)
  | alert msg =>
      mkApp (graph st) (selectedNode st) (selectedEdge st) (isGenerating st)
            (savedOntologies st) (alerts st ++ [msg]) (localStorage st)
  end.

Definition run (st : AppState) (acts : list Action) : AppState := foldl perform st acts.

Definition is_setGraph (a : Action) : bool :=
  match a with setGraph _ => true | _ => false end.

(** [handleGenerate], given how [await generateOntology(prompt)] settles:
    [try { setGraph } catch { alert } finally { setIsGenerating(false) }]. *)
Definition handleGenerate (settled : GeminiService.Error + OntologyGraph) : list Action :=
  [setIsGenerating true; setSelectedNode None; setSelectedEdge None]
  ++ match settled with
     | inr newGraph => [setGraph newGraph]
     | inl _ => [alert "Failed to generate ontology. Please try again or check your API key."]
     end
  ++ [setIsGenerating false].

(** The canvas is rendered with [onNodeSelect={setSelectedNode}] and
    [onEdgeSelect={setSelectedEdge}]. *)
Definition on_callback (c : Callback) : Action :=
  match c with
  | onNodeSelect n => setSelectedNode n
  | onEdgeSelect e => setSelectedEdge e
  end.

(** [cleanNodes]: one round of the [map]. *)
Definition cleanNode (n : OntologyNode) : OntologyNode :=
  let node := mkNode (id n) (label n) (type n) (description n)
                     None None None None PinUndefined PinUndefined in
  let node1 := match x n with Some v => set_x (Some v) node | None => node end in
  match y n with Some v => set_y (Some v) node1 | None => node1 end.

(** [typeof p === 'object' ? p.id : p] *)
Definition endpoint_id (h : Heap) (p : Endpoint) : string :=
  match p with
  | EpNode r => id (node_at h r)
  | EpId s => s
  end.

(** [cleanEdges]: one round of the [map]. *)
Definition cleanEdge (h : Heap) (e : OntologyEdge) : OntologyEdge :=
  mkEdge (eid e) (EpId (endpoint_id h (source e)))
         (EpId (endpoint_id h (target e))) (elabel e).

Definition cleanNodes (h : Heap) (currentGraph : OntologyGraph) : list OntologyNode :=
  cleanNode ∘ node_at h <$> nodes currentGraph.

Definition cleanEdges (h : Heap) (currentGraph : OntologyGraph) : list OntologyEdge :=
  cleanEdge h ∘ edge_at h <$> edges currentGraph.

(** [graphRef.current ? graphRef.current.getGraph() : graph] *)
Definition currentGraph (graphRef : option Canvas) (st : AppState) : OntologyGraph :=
  match graphRef with
  | Some canvas => getGraph canvas
  | None => graph st
  end.

(** [handleSave]: [name] is the answer to the prompt dialog, [now_id] and
    [now_ts] the two readings of [Date.now()]. *)
Definition handleSave (name : option string) (now_id now_ts : nat) (h : Heap)
  (graphRef : option Canvas) (st : AppState) : AppState :=
  match name with
  | None => st
  | Some name =>
      if String.eqb name "" then st
      else
        let g := currentGraph graphRef st in
        let newSave := mkSaved (pretty now_id) name now_ts
                               (mkSavedGraph (cleanNodes h g) (cleanEdges h g)) in
        let updatedSaves := newSave :: savedOntologies st in
        mkApp (graph st) (selectedNode st) (selectedEdge st) (isGenerating st)
              updatedSaves (alerts st ++ ["Ontology saved locally!"])
              (Some updatedSaves)
  end.

End App.
End App.

(** ** App.tsx: the handlers that edit the graph and the saves *)

Module AppEdit.
Section AppEdit.
Context `{JSNumber} `{!D3.Physics}.
Import GraphCanvas App.

(** [handleUpdateNode]: [updatedNode] takes the place of every node with its
    id; it also becomes the selection. *)
Definition handleUpdateNode (updatedNode : NodeRef) (h : Heap) (st : AppState)
  : list Action :=
  let prev := graph st in
  [setGraph (mkGraph
               ((λ n, if decide (id (node_at h n) = id (node_at h updatedNode))
                      then updatedNode else n) <$> nodes prev)
               (edges prev));
   setSelectedNode (Some updatedNode)].


(** [handleDeleteEdge] *)
Definition handleDeleteEdge (edgeId : string) (h : Heap) (st : AppState)
  : list Action :=
  let prev := graph st in
  [setGraph (mkGraph (nodes prev)
                     (filter (λ e, eid (edge_at h e) ≠ edgeId) (edges prev)));
   setSelectedEdge None].

(** [handleAddNode]; [now] is the reading of [Date.now()]. *)
Definition handleAddNode (now : nat) (h : Heap) (st : AppState)
  : Heap * list Action :=
  let prev := graph st in
  let '(h', newNode) :=
    alloc_node h (mkNode ("node-" +:+ pretty now) "New Node" TConcept
                         (Some "Manually added node")
                         None None None None PinUndefined PinUndefined) in
  (h', [setGraph (mkGraph (nodes prev ++ [newNode]) (edges prev));
        setSelectedNode (Some newNode)]).

(** [handleAddEdge] *)
Definition handleAddEdge (sourceId targetId label : string) (now : nat)
  (h : Heap) (st : AppState) : Heap * list Action :=
  let prev := graph st in
  let '(h', newEdge) :=
    alloc_edge h (mkEdge ("edge-" +:+ pretty now) (EpId sourceId) (EpId targetId) label) in
  (h', [setGraph (mkGraph (nodes prev) (edges prev ++ [newEdge]))]).

(** [handleClear]; [confirmed] is the answer to the confirmation dialog. *)
Definition handleClear (confirmed : bool) : list Action :=
  if confirmed
  then [setGraph (mkGraph [] []); setSelectedNode None; setSelectedEdge None]
  else [].

(** The data of a save as a graph of the store.  The objects of a save are
    only read (serialised, listed) until the save is loaded; they enter the
    store here, as the objects the JSON value of the data denotes. *)
Definition graph_of_data (h : Heap) (d : SavedGraph) : Heap * OntologyGraph :=
  Json.parse h (Json.mkJGraph (saved_nodes d) (Json.stringify_edge h <$> saved_edges d)).

(** [handleLoad]: the actions on the state of [App], and the new value of
    [showSaves] given the old one. *)
Definition handleLoad (confirmed : bool) (save : SavedOntology) (showSaves : bool)
  (h : Heap) : Heap * list Action * bool :=
  if confirmed
  then let '(h', g) := graph_of_data h (data save) in
       (h', [setGraph g; setSelectedNode None; setSelectedEdge None], false)
  else (h, [], showSaves).

(** [handleDeleteSave]: the click is stopped, the saves with the id are
    dropped from the state and the remaining list is written to storage. *)
Definition handleDeleteSave (i : string) (e : ClickEvent) (st : AppState)
  : ClickEvent * AppState :=
  let updated := filter (λ s, save_id s ≠ i) (savedOntologies st) in
  (stopPropagation e,
   mkApp (graph st) (selectedNode st) (selectedEdge st) (isGenerating st)
         updated (alerts st) (Some updated)).

(** A click in the list of saves lands on the delete button of a row or on
    the row itself; the button's handler runs first and the click then
    bubbles to the row's handler, [handleLoad], unless it was stopped. *)
Inductive SaveClick := OnDeleteButton (save : SavedOntology) | OnRow (save : SavedOntology).

Definition save_click (t : SaveClick) (confirmed : bool) (showSaves : bool)
  (h : Heap) (st : AppState) : Heap * AppState * bool :=
  match t with
  | OnRow save =>
      let '(h', acts, shown) := handleLoad confirmed save showSaves h in
      (h', run st acts, shown)
  | OnDeleteButton save =>
      let '(e, st') := handleDeleteSave (save_id save) (mkClick false) st in
      if propagationStopped e then (h, st', showSaves)
      else let '(h', acts, shown) := handleLoad confirmed save showSaves h in
           (h', run st' acts, shown)
  end.

End AppEdit.
End AppEdit.

(** ** The sidebar: connecting the selected node to another one *)

Module Sidebar.
Section Sidebar.
Context `{JSNumber}.

(** The state of the component. *)
Record SidebarState := mkSidebar {
  prompt : string;
  edgeLabel : string;
  edgeTarget : string;
  isConnecting : bool;
}.

(** [useState('')], [useState('related_to')], [useState('')],
    [useState(false)] *)
Definition initial : SidebarState := mkSidebar "" "related_to" "" false.

(** [handleConnectionStart]; [nodes] is the prop, the nodes of the graph. *)
Definition handleConnectionStart (selectedNode : option NodeRef)
  (nodes : list NodeRef) (h : Heap) (s : SidebarState) : SidebarState :=
  match selectedNode with
  | Some sel =>
      let otherNodes := filter (λ n, id (node_at h n) ≠ id (node_at h sel)) nodes in
      mkSidebar (prompt s) (edgeLabel s)
                (match otherNodes with
                 | n :: _ => id (node_at h n)
                 | [] => edgeTarget s
                 end)
                true
  | None => s
  end.

(** [handleCreateEdge]: the arguments [onAddEdge] is called with, if it is
    called, and the new state. *)
Definition handleCreateEdge (selectedNode : option NodeRef) (h : Heap)
  (s : SidebarState) : option (string * string * string) * SidebarState :=
  match selectedNode with
  | Some sel =>
      if String.eqb (edgeTarget s) "" then (None, s)
      else (Some (id (node_at h sel), edgeTarget s, edgeLabel s),
            mkSidebar (prompt s) "related_to" (edgeTarget s) false)
  | None => (None, s)
  end.

End Sidebar.
End Sidebar.

(** ** Integrity of a graph *)

Module Integrity.
Section Integrity.
Context `{JSNumber} `{!D3.Physics}.
Import App.

Definition node_ids (h : Heap) (g : OntologyGraph) : list string :=
  id ∘ node_at h <$> nodes g.

(** Every end of every edge leads to the id of a node of the graph. *)
Definition closed (h : Heap) (g : OntologyGraph) : Prop :=
  ∀ e, e ∈ edges g →
       endpoint_id h (source (edge_at h e)) ∈ node_ids h g ∧
       endpoint_id h (target (edge_at h e)) ∈ node_ids h g.

(** Every reference of the graph names an object of the store. *)
Definition graph_live (h : Heap) (g : OntologyGraph) : Prop :=
  (∀ n, n ∈ nodes g → n < length (hnodes h)) ∧
  (∀ e, e ∈ edges g →
        e < length (hedges h) ∧
        match source (edge_at h e) with EpNode r => r < length (hnodes h) | EpId _ => True end ∧
        match target (edge_at h e) with EpNode r => r < length (hnodes h) | EpId _ => True end).

(** The "Connect to..." flow from the sidebar into [App]: start, then "Add
    Link", whose call of [onAddEdge] is [handleAddEdge]. *)
Definition connect (now : nat) (h : Heap) (st : AppState) (s : Sidebar.SidebarState)
  : Heap * AppState * Sidebar.SidebarState :=
  let s1 := Sidebar.handleConnectionStart (selectedNode st) (nodes (graph st)) h s in
  match Sidebar.handleCreateEdge (selectedNode st) h s1 with
  | (Some (sourceId, targetId, label), s2) =>
      let '(h', acts) := AppEdit.handleAddEdge sourceId targetId label now h st in
      (h', run st acts, s2)
  | (None, s2) => (h, st, s2)
  end.

End Integrity.
End Integrity.

(** ** Text *)

Module Text.
Import Stdlib.Strings.Ascii.

(** A string without the character [-]. *)
Fixpoint dashless (s : string) : bool :=
  match s with
  | EmptyString => true
  | String c s' => negb (Ascii.eqb c "-"%char) && dashless s'
  end.

End Text.

(** ** The contract of reconciliation, in the words of the design *)

Module Contract.
Section Contract.
Context `{JSNumber} `{!D3.Physics}.
Import D3.

(** The node of the old working copy that carries the id [s], if there is
    one (the last one, should several carry it). *)
Definition old_node (h : Heap) (simulation : option Simulation) (s : string)
  : option OntologyNode :=
  match simulation with
  | Some sim => node_at h <$> map_by_id h (sim_nodes sim) !! s
  | None => None
  end.

(** [n'] is the reconciled copy of the snapshot node [n]: identity, label,
    category, description and pin are the snapshot's; with an old node of the
    same id, the position is the old node's and so is each velocity component
    the old node has; without one, position and velocity are the snapshot's. *)
Definition reconciled (old : option OntologyNode) (n n' : OntologyNode) : Prop :=
  id n' = id n ∧ label n' = label n ∧ type n' = type n ∧
  description n' = description n ∧ fx n' = fx n ∧ fy n' = fy n ∧
  match old with
  | Some o =>
      x n' = x o ∧ y n' = y o ∧
      vx n' = (if vx o is Some _ then vx o else vx n) ∧
      vy n' = (if vy o is Some _ then vy o else vy n)
  | None => x n' = x n ∧ y n' = y n ∧ vx n' = vx n ∧ vy n' = vy n
  end.

(** An endpoint whose reference, if it is one, names an object of the store. *)
Definition endpoint_live (h : Heap) (p : Endpoint) : Prop :=
  match p with EpNode r => r < length (hnodes h) | EpId _ => True end.

(** An endpoint whose reference, if it is one, is at or above an address. *)
Definition endpoint_above (b : nat) (p : Endpoint) : Prop :=
  match p with EpNode r => b ≤ r | EpId _ => True end.

(** The edge at [e] has an endpoint that is a plain id absent from the id
    table [m]. *)
Definition dangling (h : Heap) (m : gmap string NodeRef) (e : EdgeRef) : Prop :=
  ∃ s, (source (edge_at h e) = EpId s ∨ target (edge_at h e) = EpId s) ∧
       m !! s = None.

(** The value the [forEach] of the first effect leaves in a copied node [n],
    given the id table [m] and the objects [old] it points into. *)
Definition merged (m : gmap string NodeRef) (old : list OntologyNode)
  (n : OntologyNode) : OntologyNode :=
  match m !! id n with
  | Some r => GraphCanvas.copy_geometry (default no_node (old !! r)) n
  | None => n
  end.

End Contract.
End Contract.

(** ** Concrete data

    A physics to run the definitions with: the net force pushes every node one
    unit to the right and adds one to its horizontal velocity (so a pinned
    node is displaced during a tick, before the pin is applied); the [i]-th
    node without a position starts at [(10 i, 0)]. *)

Module Examples.
Import D3 GraphCanvas App.

Definition push (n : OntologyNode) : OntologyNode :=
  set_vx (Some (Qplus (to_num (vx n)) (Qmake 1 1)))
         (set_x (Some (Qplus (to_num (x n)) (Qmake 1 1))) n).

#[export] Instance physics : D3.Physics := {|
  initial_position i := (inject_Z (Z.of_nat i * 10), Qmake 0 1);
  velocityDecay := Qmake 6 10;
  alphaDecay := Qmake 1 50;
  alphaMin := Qmake 1 1000;
  forces _ _ h _ ns := push ∘ node_at h <$> ns;
|}.

Definition plain (i l : string) : OntologyNode :=
  mkNode i l TConcept None None None None None PinUndefined PinUndefined.

Definition placed (i l : string) (px py : Q) : OntologyNode :=
  mkNode i l TConcept None (Some px) (Some py) None None PinUndefined PinUndefined.

(** The graph of the scenario: [a --is_a--> b]. *)
Definition heap_ab : Heap :=
  mkHeap [plain "a" "A"; plain "b" "B"] [mkEdge "e1" (EpId "a") (EpId "b") "is_a"].
Definition graph_ab : OntologyGraph := mkGraph [0; 1] [0].

(** A later snapshot of it in the same store: [a] again, and a new node [c]
    that comes with a saved position. *)
Definition heap_ac (h : Heap) : Heap :=
  mkHeap (hnodes h ++ [plain "a" "A"; placed "c" "C" (Qmake 5 1) (Qmake 7 1)])
         (hedges h ++ [mkEdge "e2" (EpId "a") (EpId "c") "has"]).
Definition graph_ac (h : Heap) : OntologyGraph :=
  mkGraph [length (hnodes h); S (length (hnodes h))] [length (hedges h)].

(** A snapshot whose only edge names a node that is not there. *)
Definition heap_dangling (h : Heap) : Heap :=
  mkHeap (hnodes h ++ [plain "a" "A"])
         (hedges h ++ [mkEdge "e9" (EpId "a") (EpId "ghost") "is_a"]).
Definition graph_dangling (h : Heap) : OntologyGraph :=
  mkGraph [length (hnodes h)] [length (hedges h)].

Definition width : Q := Qmake 800 1.
Definition height : Q := Qmake 600 1.

(** The component at its first render of the scenario graph, and the store
    and component after the render effect of that render. *)
Definition canvas0 : Canvas := mkCanvas graph_ab graph_ab None true width height [].

Definition rendered_ab : Heap * Canvas := outcome (render_effect heap_ab canvas0).

(** The canvas after mounting the scenario graph. *)
Definition mounted_ab : Heap * Canvas := outcome (mount heap_ab graph_ab width height).

(** The same canvas two ticks later. *)
Definition ticked_ab : Heap * Canvas :=
  let '(h, st) := mounted_ab in
  match simulationRef st with
  | Some sim =>
      let '(h', sim') := ticks 2 h sim in
      (h', mkCanvas (GraphCanvas.graph st) (activeGraph st) (Some sim') (attached st)
                    (clientWidth st) (clientHeight st) (scene st))
  | None => (h, st)
  end.

(** The simulation a canvas refers to. *)
Definition the_simulation (st : Canvas) : Simulation :=
  default (mkSimulation [] [] (force_config st) zero zero false) (simulationRef st).

(** Node [a] of the mounted canvas (object 2) is dragged to (100, 100). *)
Definition drag_to_100 : DragEvent := mkDrag 0 (Qmake 100 1) (Qmake 100 1).

Definition dragged_ab : Heap * Simulation :=
  let '(h1, s1) := dragstarted mounted_ab.1 (the_simulation mounted_ab.2) drag_to_100 2 in
  dragged h1 s1 drag_to_100 2.

(** Two fingers: [a] (object 2) is grabbed first, then [b] (object 3) while
    the first gesture is in progress; the state when the first finger is
    about to lift. *)
Definition two_fingers : Heap * Simulation :=
  let '(h1, s1) := dragstarted mounted_ab.1 (the_simulation mounted_ab.2) drag_to_100 2 in
  dragstarted h1 s1 (mkDrag 1 (Qmake 10 1) (Qmake 0 1)) 3.

Definition app0 : AppState :=
  mkApp graph_ab None None false [] [] None.

(** An engine's wording of its [TypeError]s. *)
Definition type_error (r : GeminiService.Refused) : GeminiService.Error :=
  GeminiService.mkError
    match r with
    | GeminiService.PropertyOfNull p => "TypeError: cannot read property of null: " +:+ p
    | GeminiService.NotAFunction m => "TypeError: not a function: " +:+ m
    end.

(** Outsides for the generation service: a model that answers nothing; one
    whose answer parses to the scenario graph (edges come without ids); one
    whose answer is the text [null]; one whose answer has a number where the
    edge array should be.  The clock always reads 1000. *)
Definition outside0 : GeminiService.Outside :=
  GeminiService.mkOutside (λ _ _ _, inr None)
                          (λ _, inl (GeminiService.mkError "SyntaxError"))
                          (λ _, 1000) type_error.

Definition answer_ab : GeminiService.ParsedData :=
  GeminiService.DataValue
    (Some [plain "a" "A"; plain "b" "B"])
    (GeminiService.EdgesArray [Json.mkJEdge "" (Json.JStr "a") (Json.JStr "b") "is_a"]).

Definition outside1 : GeminiService.Outside :=
  GeminiService.mkOutside (λ _ _ _, inr (Some "{...}")) (λ _, inr answer_ab)
                          (λ _, 1000) type_error.

Definition outside_null : GeminiService.Outside :=
  GeminiService.mkOutside (λ _ _ _, inr (Some "null"))
                          (λ _, inr GeminiService.DataNull)
                          (λ _, 1000) type_error.

Definition outside_number : GeminiService.Outside :=
  GeminiService.mkOutside
    (λ _ _ _, inr (Some "{...}"))
    (λ _, inr (GeminiService.DataValue (Some [plain "a" "A"]) GeminiService.EdgesOther))
    (λ _, 1000) type_error.

End Examples.

(** ** More concrete data: [App] around the scenario graph *)

Module MoreExamples.
Import D3 GraphCanvas App Examples.

(** The canvas as [App] drives it: mounted with the empty graph [App] starts
    with, then given the scenario graph.  The snapshot's objects (nodes 0 and
    1, edge 0) stay plain; the working copy is made of objects 2 and 3 and
    edge 1. *)
Definition shown_ab : Heap * Canvas :=
  outcome (update heap_ab (outcome (mount empty_heap (mkGraph [] []) width height)).2
                  graph_ab).

(** [App] showing the scenario graph, with node [a] of the working copy
    selected. *)
Definition app_shown : AppState :=
  mkApp graph_ab (Some 2) None false [] [] None.

(** The store with one more object: the copy of the selected node that the
    sidebar builds when its label is edited to "Alpha". *)
Definition heap_edited : Heap :=
  (alloc_node shown_ab.1
              (mkNode "a" "Alpha" TConcept None (Some (Qmake 0 1)) (Some (Qmake 0 1))
                      (Some (Qmake 0 1)) (Some (Qmake 0 1)) PinUndefined PinUndefined)).1.

(** The canvas showing [a -> b], two ticks on, given the snapshot with [a]
    and the new node [c]. *)
Definition updated_ac : EffectResult :=
  update (heap_ac ticked_ab.1) ticked_ab.2 (graph_ac ticked_ab.1).

End MoreExamples.

(** * Properties *)

(** ** The store *)

Section Store.
Context `{JSNumber}.

Lemma node_at_put_node_eq h r n :
  r < length (hnodes h) → node_at (put_node h r n) r = n.
Proof.
  intros Hr. unfold node_at, put_node; simpl.
  by rewrite list_lookup_insert_eq.
Qed.

Lemma node_at_put_node_ne h r r' n :
  r ≠ r' → node_at (put_node h r n) r' = node_at h r'.
Proof.
  intros Hne. unfold node_at, put_node; simpl.
  by rewrite list_lookup_insert_ne.
Qed.

Lemma length_put_node h r n :
  length (hnodes (put_node h r n)) = length (hnodes h).
Proof. unfold put_node; simpl. apply length_insert. Qed.

Lemma edge_at_put_edge_eq h r e :
  r < length (hedges h) → edge_at (put_edge h r e) r = e.
Proof.
  intros Hr. unfold edge_at, put_edge; simpl.
  by rewrite list_lookup_insert_eq.
Qed.

Lemma edge_at_put_edge_ne h r r' e :
  r ≠ r' → edge_at (put_edge h r e) r' = edge_at h r'.
Proof.
  intros Hne. unfold edge_at, put_edge; simpl.
  by rewrite list_lookup_insert_ne.
Qed.

Lemma length_put_edge h r e :
  length (hedges (put_edge h r e)) = length (hedges h).
Proof. unfold put_edge; simpl. apply length_insert. Qed.

(** A whole-object write that keeps the id keeps every id of the store. *)
Lemma id_put_node h r n r' :
  id n = id (node_at h r) → id (node_at (put_node h r n) r') = id (node_at h r').
Proof.
  intros Hid. destruct (decide (r = r')) as [<-|Hne].
  - destruct (decide (r < length (hnodes h))) as [Hlt|Hge].
    + by rewrite node_at_put_node_eq.
    + unfold put_node, node_at; simpl. rewrite list_insert_ge; [done | lia].
  - by rewrite node_at_put_node_ne.
Qed.

(** The id table only looks at the ids of the listed nodes. *)
Lemma map_by_id_ext h h' ns :
  (∀ r, r ∈ ns → id (node_at h' r) = id (node_at h r)) →
  map_by_id h' ns = map_by_id h ns.
Proof.
  unfold map_by_id. generalize (∅ : gmap string NodeRef).
  induction ns as [|r ns IH]; intros m Hids; simpl; [done|].
  rewrite Hids by apply list_elem_of_here.
  apply IH. intros r' Hr'. by apply Hids, list_elem_of_further.
Qed.

Lemma map_by_id_fold_None h ns (m : gmap string NodeRef) s :
  foldl (λ m r, <[id (node_at h r) := r]> m) m ns !! s = None ↔
  m !! s = None ∧ ∀ r, r ∈ ns → id (node_at h r) ≠ s.
Proof.
  revert m. induction ns as [|r ns IH]; intros m; simpl.
  - split; [intros Hm; split; [done | intros r Hr; by apply elem_of_nil in Hr] | by intros [? _]].
  - rewrite IH. rewrite lookup_insert_None. split.
    + intros [[Hm Hne] Hall]. split; [done|].
      intros r' Hr'. apply elem_of_cons in Hr' as [->|Hr']; eauto.
    + intros [Hm Hall]. split; [split; [done|] |].
      * apply Hall, list_elem_of_here.
      * intros r' Hr'. by apply Hall, list_elem_of_further.
Qed.

Lemma map_by_id_fold_Some h ns (m : gmap string NodeRef) s r :
  foldl (λ m r, <[id (node_at h r) := r]> m) m ns !! s = Some r →
  m !! s = Some r ∨ (r ∈ ns ∧ id (node_at h r) = s).
Proof.
  revert m. induction ns as [|r0 ns IH]; intros m; simpl; [by left|].
  intros Hl. apply IH in Hl as [Hl | [Hin Hid]].
  - apply lookup_insert_Some in Hl as [[<- <-] | [_ Hm]].
    + right. split; [apply list_elem_of_here | done].
    + by left.
  - right. split; [by apply list_elem_of_further | done].
Qed.

(** No node of the array carries the id exactly when the table has no entry
    for it. *)
Lemma map_by_id_None h ns s :
  map_by_id h ns !! s = None ↔ ∀ r, r ∈ ns → id (node_at h r) ≠ s.
Proof.
  unfold map_by_id. rewrite map_by_id_fold_None. rewrite lookup_empty.
  split; [by intros [_ ?] | by intros ?].
Qed.

(** An entry of the table is a node of the array that carries the id. *)
Lemma map_by_id_Some h ns s r :
  map_by_id h ns !! s = Some r → r ∈ ns ∧ id (node_at h r) = s.
Proof.
  unfold map_by_id. intros Hl. apply map_by_id_fold_Some in Hl as [Hl|Hl]; [|done].
  by rewrite lookup_empty in Hl.
Qed.

End Store.

(** ** The deep copy *)

Section DeepCopy.
Context `{JSNumber}.
Import Json Contract.

Lemma parse_nodes_spec h ns :
  parse_nodes h ns =
  (mkHeap (hnodes h ++ ns) (hedges h), seq (length (hnodes h)) (length ns)).
Proof.
  revert h. induction ns as [|n ns IH]; intros h; simpl.
  - rewrite app_nil_r. by destruct h.
  - rewrite IH; simpl. rewrite length_app; simpl.
    rewrite <- app_assoc; simpl. do 3 f_equal. lia.
Qed.

Lemma node_at_prefix h h' r :
  hnodes h `prefix_of` hnodes h' → r < length (hnodes h) →
  node_at h' r = node_at h r.
Proof.
  intros [k Hk] Hr. unfold node_at. by rewrite Hk, lookup_app_l.
Qed.

Lemma stringify_endpoint_prefix h h' p :
  hnodes h `prefix_of` hnodes h' → endpoint_live h p →
  stringify_endpoint h' p = stringify_endpoint h p.
Proof.
  destruct p as [s|r]; simpl; [done|]. intros Hpre Hr.
  by rewrite (node_at_prefix h h').
Qed.

Lemma parse_endpoint_spec h p h' q :
  parse_endpoint h p = (h', q) →
  hnodes h `prefix_of` hnodes h' ∧ hedges h' = hedges h ∧
  endpoint_live h' q ∧ endpoint_above (length (hnodes h)) q ∧
  stringify_endpoint h' q = p.
Proof.
  destruct p as [s|n]; simpl; intros [= <- <-]; simpl.
  - done.
  - split; [by apply prefix_app_r|]. split; [done|]. split; [|split; [done|]].
    + rewrite length_app; simpl. lia.
    + unfold node_at; simpl. by rewrite list_lookup_middle.
Qed.

Lemma endpoint_above_le b b' p :
  b ≤ b' → endpoint_above b' p → endpoint_above b p.
Proof. destruct p; simpl; [done | lia]. Qed.

(** The parsed edges are new objects at the end of the edge store, one per
    edge of the tree and in its order, and each serialises back to the edge it
    was parsed from; the node store only grows. *)
Lemma parse_edges_spec js : ∀ h h' rs,
  parse_edges h js = (h', rs) →
  hnodes h `prefix_of` hnodes h' ∧
  rs = seq (length (hedges h)) (length js) ∧
  ∃ es, hedges h' = hedges h ++ es ∧
        Forall2 (λ j e, stringify_edge h' e = j ∧
                        endpoint_above (length (hnodes h)) (source e) ∧
                        endpoint_above (length (hnodes h)) (target e)) js es.
Proof.
  induction js as [|j js IH]; intros h h' rs; simpl.
  - intros [= <- <-]. split; [done|]. split; [done|].
    exists []. by rewrite app_nil_r.
  - destruct (parse_endpoint h (jsource j)) as [h1 s] eqn:Hs.
    destruct (parse_endpoint h1 (jtarget j)) as [h2 t] eqn:Ht.
    destruct (parse_edges _ js) as [h4 rs'] eqn:Hrest.
    intros [= <- <-].
    apply parse_endpoint_spec in Hs as (Hp1 & He1 & Hsl & Hsa & Hss).
    apply parse_endpoint_spec in Ht as (Hp2 & He2 & Htl & Hta & Hts).
    apply IH in Hrest as (Hp3 & -> & es3 & He3 & Hall).
    simpl in Hp3, He3.
    assert (Hp24 : hnodes h2 `prefix_of` hnodes h4) by done.
    assert (Hp14 : hnodes h1 `prefix_of` hnodes h4) by (by etrans).
    split; [by etrans|]. simpl. rewrite length_app, Nat.add_1_r.
    rewrite He2, He1. split; [done|].
    exists (mkEdge (jid j) s t (jlabel j) :: es3).
    split; [by rewrite He3, He2, He1, <- app_assoc|].
    pose proof (prefix_length _ _ Hp1) as Hl1.
    pose proof (prefix_length _ _ Hp2) as Hl2.
    constructor.
    + split; [|split]; simpl.
      * unfold stringify_edge; simpl.
        rewrite (stringify_endpoint_prefix h1 h4), (stringify_endpoint_prefix h2 h4)
          by done.
        rewrite Hss, Hts. by destruct j.
      * done.
      * apply (endpoint_above_le _ (length (hnodes h1))); [lia | done].
    + eapply Forall2_impl; [exact Hall|]. simpl.
      intros j' e' (Hj & Ha & Hb). split; [done|].
      split; (eapply endpoint_above_le; [|eassumption]); simpl; lia.
Qed.

End DeepCopy.

(** ** Reconciliation *)

Section Reconcile.
Context `{JSNumber} `{!D3.Physics}.
Import D3 GraphCanvas Contract Json.

(** The [forEach] over the copied nodes, which sit in a row after the old
    objects [pre]: each is replaced by its merged value, nothing else moves. *)
Lemma foldl_reconcile_node m pre es : ∀ todo seen post,
  (∀ s r, m !! s = Some r → r < length pre) →
  foldl (reconcile_node m) (mkHeap (pre ++ seen ++ todo ++ post) es)
        (seq (length pre + length seen) (length todo))
  = mkHeap (pre ++ seen ++ (merged m pre <$> todo) ++ post) es.
Proof.
  induction todo as [|n todo IH]; intros seen post Hm; [done|].
  cbn [length seq foldl fmap list_fmap].
  set (h0 := mkHeap (pre ++ seen ++ (n :: todo) ++ post) es).
  assert (Hidx : length pre + length seen = length (pre ++ seen) + 0)
    by (rewrite length_app; lia).
  assert (Hn : node_at h0 (length pre + length seen) = n).
  { unfold node_at, h0; simpl. rewrite app_assoc, Hidx, Nat.add_0_r.
    by rewrite list_lookup_middle. }
  assert (Hstep : reconcile_node m h0 (length pre + length seen)
                  = mkHeap (pre ++ (seen ++ [merged m pre n]) ++ todo ++ post) es).
  { unfold reconcile_node. rewrite Hn. unfold merged.
    destruct (m !! id n) as [r|] eqn:Hr.
    - assert (Hex : node_at h0 r = default no_node (pre !! r)).
      { unfold node_at, h0; simpl. rewrite lookup_app_l; [done | by eapply Hm]. }
      rewrite Hex. unfold put_node, h0; simpl. f_equal.
      rewrite (app_assoc pre seen), Hidx, insert_app_r; simpl.
      by rewrite <- !app_assoc.
    - unfold h0. f_equal. by rewrite <- !app_assoc. }
  rewrite Hstep.
  replace (S (length pre + length seen)) with (length pre + length (seen ++ [merged m pre n]))
    by (rewrite length_app; simpl; lia).
  rewrite IH by done. f_equal. by rewrite <- !app_assoc.
Qed.

Lemma copy_geometry_reconciled o n : reconciled (Some o) n (copy_geometry o n).
Proof.
  unfold reconciled, copy_geometry.
  destruct (vx o), (vy o); simpl; repeat split; reflexivity.
Qed.

Lemma reconciled_refl n : reconciled None n n.
Proof. unfold reconciled. repeat split; reflexivity. Qed.

(** The store after the first effect, laid out. *)
Lemma reconcile_layout h simulation g h' g' :
  (∀ sim r, simulation = Some sim → r ∈ sim_nodes sim → r < length (hnodes h)) →
  reconcile h simulation g = (h', g') →
  let m := match simulation with
           | Some sim => map_by_id h (sim_nodes sim)
           | None => ∅
           end in
  ∃ extra es,
    hnodes h' = hnodes h ++ (merged m (hnodes h) <$> (node_at h <$> nodes g)) ++ extra ∧
    hedges h' = hedges h ++ es ∧
    nodes g' = seq (length (hnodes h)) (length (nodes g)) ∧
    edges g' = seq (length (hedges h)) (length (edges g)) ∧
    Forall2 (λ r e, stringify_edge h' e = stringify_edge h (edge_at h r))
            (edges g) es.
Proof.
  intros Hlive. unfold reconcile, deep_copy, parse, stringify; simpl.
  rewrite parse_nodes_spec.
  set (vals := node_at h <$> nodes g).
  set (h1 := mkHeap (hnodes h ++ vals) (hedges h)).
  destruct (parse_edges h1 _) as [h2 rs] eqn:Hedges.
  apply parse_edges_spec in Hedges as ([extra Hext] & -> & es & Hes & Hall).
  simpl in Hext, Hes. rewrite <- app_assoc in Hext.
  rewrite !length_fmap in *.
  assert (Hh2 : h2 = mkHeap (hnodes h ++ [] ++ vals ++ extra) (hedges h ++ es)).
  { destruct h2; simpl in *. by subst. }
  assert (Hback : ∀ e, endpoint_above (length (hnodes h ++ vals)) (source e) →
                       endpoint_above (length (hnodes h ++ vals)) (target e) →
                       ∀ vals', length vals' = length vals →
                       stringify_edge (mkHeap (hnodes h ++ vals' ++ extra) (hedges h ++ es)) e
                       = stringify_edge h2 e).
  { intros e Hs Ht vals' Hlen. unfold stringify_edge. rewrite Hh2; simpl.
    assert (Hp : ∀ p, endpoint_above (length (hnodes h ++ vals)) p →
                      stringify_endpoint (mkHeap (hnodes h ++ vals' ++ extra) (hedges h ++ es)) p
                      = stringify_endpoint (mkHeap (hnodes h ++ vals ++ extra) (hedges h ++ es)) p).
    { intros [s|r]; simpl; [done|]. rewrite length_app. intros Hr.
      unfold node_at; simpl.
      rewrite !(app_assoc (hnodes h)).
      rewrite !lookup_app_r by (rewrite length_app; lia).
      by rewrite !length_app, Hlen. }
    by rewrite !Hp. }
  assert (Hedge_rel : ∀ vals', length vals' = length vals →
            Forall2 (λ r e, stringify_edge (mkHeap (hnodes h ++ vals' ++ extra) (hedges h ++ es)) e
                            = stringify_edge h (edge_at h r)) (edges g) es).
  { intros vals' Hlen.
    apply Forall2_fmap_l in Hall. eapply Forall2_impl; [exact Hall|]. simpl.
    intros r e (Hj & Hs & Ht). rewrite <- Hj. subst h1. by apply Hback. }
  assert (Hlen : length vals = length (nodes g)) by (unfold vals; by rewrite length_fmap).
  destruct simulation as [sim|]; intros [= <- <-]; simpl.
  - assert (Hm : map_by_id h2 (sim_nodes sim) = map_by_id h (sim_nodes sim)).
    { apply map_by_id_ext. intros r Hr. f_equal.
      apply node_at_prefix; [|by eapply Hlive].
      rewrite Hh2; simpl. by apply prefix_app_r. }
    rewrite Hm, Hh2.
    replace (length (hnodes h)) with (length (hnodes h) + length (@nil OntologyNode))
      by (simpl; lia).
    rewrite <- Hlen.
    rewrite foldl_reconcile_node.
    + simpl. exists extra, es. rewrite Nat.add_0_r.
      split_and!; try done.
      apply Hedge_rel. by rewrite length_fmap.
    + intros s r Hs. apply map_by_id_Some in Hs as [Hr _]. by eapply Hlive.
  - exists extra, es. rewrite Hh2; simpl.
    assert (Hid : merged ∅ (hnodes h) <$> vals = vals).
    { rewrite <- (list_fmap_id vals) at 2. apply list_fmap_ext.
      intros i n _. unfold merged. by rewrite lookup_empty. }
    rewrite Hid, <- Hlen. split_and!; try done. by apply Hedge_rel.
Qed.

End Reconcile.

Section ReconcileContract.
Context `{JSNumber} `{!D3.Physics}.
Import D3 GraphCanvas Contract Json.

(** What the first effect does, in full. *)
Lemma reconcile_spec h simulation g h' g' :
  (∀ sim r, simulation = Some sim → r ∈ sim_nodes sim → r < length (hnodes h)) →
  reconcile h simulation g = (h', g') →
  heap_extends h h' ∧
  nodes g' = seq (length (hnodes h)) (length (nodes g)) ∧
  edges g' = seq (length (hedges h)) (length (edges g)) ∧
  Forall2 (λ r r', reconciled (old_node h simulation (id (node_at h r)))
                              (node_at h r) (node_at h' r'))
          (nodes g) (nodes g') ∧
  Forall2 (λ r r', stringify_edge h' (edge_at h' r') = stringify_edge h (edge_at h r))
          (edges g) (edges g').
Proof.
  intros Hlive Hrec.
  destruct (reconcile_layout _ _ _ _ _ Hlive Hrec)
    as (extra & es & Hn & He & Hgn & Hge & Hedges).
  split_and!; try done.
  - split; intros r Hr.
    + by rewrite Hn, lookup_app_l.
    + by rewrite He, lookup_app_l.
  - rewrite Hgn. apply Forall2_same_length_lookup_2; [by rewrite length_seq|].
    intros i r r' Hi Hi'. apply lookup_seq in Hi' as [-> Hlt].
    assert (Hval : node_at h' (length (hnodes h) + i)
                   = merged match simulation with
                            | Some sim => map_by_id h (sim_nodes sim)
                            | None => ∅
                            end (hnodes h) (node_at h r)).
    { unfold node_at at 1. rewrite Hn, lookup_app_r by lia.
      replace (length (hnodes h) + i - length (hnodes h)) with i by lia.
      rewrite lookup_app_l by (by rewrite !length_fmap).
      by rewrite !list_lookup_fmap, Hi. }
    rewrite Hval. unfold merged, old_node.
    destruct simulation as [sim|].
    + destruct (map_by_id h (sim_nodes sim) !! id (node_at h r)) as [r0|]; simpl.
      * apply copy_geometry_reconciled.
      * apply reconciled_refl.
    + rewrite lookup_empty. apply reconciled_refl.
  - rewrite Hge. apply Forall2_same_length_lookup_2; [by rewrite length_seq|].
    intros i r r' Hi Hi'. apply lookup_seq in Hi' as [-> Hlt].
    destruct (Forall2_lookup_l _ _ _ _ _ Hedges Hi) as (e & Hes & Hrel).
    unfold edge_at at 1. rewrite He, lookup_app_r by lia.
    replace (length (hedges h) + i - length (hedges h)) with i by lia.
    by rewrite Hes.
Qed.

(** C2, as amended.  Reconciling a snapshot [g] against the old working copy
    (the nodes of the current simulation, if there is one) yields a deep,
    independent copy: the objects of the result are new (they sit after every
    object that existed before), nothing that existed before is changed (so
    neither the snapshot nor the old working copy is mutated), every edge is
    rebuilt with the same JSON value, and every node is the reconciled copy
    of the snapshot's node: with an old node of the same id its position is
    the old node's, and so is its velocity where the old node has one; for a
    new id position and velocity are what the snapshot has (unset when the
    snapshot has none). *)
Theorem reconcile_preserves_geometry h simulation g h' g' :
  (∀ sim r, simulation = Some sim → r ∈ sim_nodes sim → r < length (hnodes h)) →
  reconcile h simulation g = (h', g') →
  heap_extends h h' ∧
  nodes g' = seq (length (hnodes h)) (length (nodes g)) ∧
  edges g' = seq (length (hedges h)) (length (edges g)) ∧
  Forall2 (λ r r', reconciled (old_node h simulation (id (node_at h r)))
                              (node_at h r) (node_at h' r'))
          (nodes g) (nodes g') ∧
  Forall2 (λ r r', stringify_edge h' (edge_at h' r') = stringify_edge h (edge_at h r))
          (edges g) (edges g').
Proof. apply reconcile_spec. Qed.

End ReconcileContract.

Section ReconcileExamples.
Import D3 GraphCanvas Contract Json Examples.

(** The contract of C2 at work: the canvas shows [a -> b] and has ticked
    twice, the new snapshot holds [a] and a new node [c]. *)
Lemma reconcile_preserves_geometry_witness :
  let h := heap_ac ticked_ab.1 in
  let g := graph_ac ticked_ab.1 in
  let r := reconcile h (simulationRef ticked_ab.2) g in
  heap_extends h r.1 ∧
  nodes r.2 = seq (length (hnodes h)) (length (nodes g)) ∧
  edges r.2 = seq (length (hedges h)) (length (edges g)) ∧
  Forall2 (λ n n', reconciled (old_node h (simulationRef ticked_ab.2) (id (node_at h n)))
                              (node_at h n) (node_at r.1 n'))
          (nodes g) (nodes r.2) ∧
  Forall2 (λ e e', stringify_edge r.1 (edge_at r.1 e') = stringify_edge h (edge_at h e))
          (edges g) (edges r.2).
Proof.
  intros h g r.
  apply (reconcile_preserves_geometry h (simulationRef ticked_ab.2) g r.1 r.2).
  - intros sim n Hsim Hn. vm_compute in Hsim. injection Hsim as <-.
    vm_compute. simpl in Hn.
    repeat (apply elem_of_cons in Hn as [->|Hn]); [lia | lia |].
    by apply elem_of_nil in Hn.
  - apply surjective_pairing.
Defined.

(** C2 as stated fails: [c] is new to the working copy (no old node carries
    its id), and its reconciled copy has the position the snapshot came with,
    (5, 7), not an unset one. *)
Lemma reconcile_new_node_keeps_snapshot_position :
  let h := heap_ac ticked_ab.1 in
  let r := reconcile h (simulationRef ticked_ab.2) (graph_ac ticked_ab.1) in
  ∃ c, nodes r.2 !! 1 = Some c ∧
       id (node_at r.1 c) = "c" ∧
       old_node h (simulationRef ticked_ab.2) "c" = None ∧
       x (node_at r.1 c) = Some (Qmake 5 1) ∧ y (node_at r.1 c) = Some (Qmake 7 1) ∧
       x (node_at r.1 c) ≠ None ∧ y (node_at r.1 c) ≠ None.
Proof.
  exists 7. vm_compute. split_and!; (reflexivity || discriminate).
Qed.

End ReconcileExamples.

(** ** Setting up the simulation *)

Section Links.
Context `{JSNumber} `{!D3.Physics}.
Import D3 GraphCanvas Contract.

Lemma id_initialize_node i n : id (initialize_node i n) = id n.
Proof.
  unfold initialize_node.
  repeat (match goal with |- context [match ?c with _ => _ end] => destruct c end;
          simpl); reflexivity.
Qed.

Lemma initialize_nodes_spec rs : ∀ h i,
  hedges (initialize_nodes h i rs) = hedges h ∧
  length (hnodes (initialize_nodes h i rs)) = length (hnodes h) ∧
  ∀ r, id (node_at (initialize_nodes h i rs) r) = id (node_at h r).
Proof.
  induction rs as [|r0 rs IH]; intros h i; simpl; [done|].
  destruct (IH (put_node h r0 (initialize_node i (node_at h r0))) (S i))
    as (He & Hl & Hid).
  split_and!.
  - by rewrite He.
  - by rewrite Hl, length_put_node.
  - intros r. rewrite Hid. apply id_put_node, id_initialize_node.
Qed.

Lemma edge_at_put_edge h l e' e :
  edge_at (put_edge h l e') e =
  if decide (l = e ∧ l < length (hedges h)) then e' else edge_at h e.
Proof.
  case_decide as Hd.
  - destruct Hd as [<- Hl]. by apply edge_at_put_edge_eq.
  - destruct (decide (l = e)) as [<-|Hne].
    + unfold edge_at, put_edge; simpl. rewrite list_insert_ge; [done | lia].
    + by apply edge_at_put_edge_ne.
Qed.

(** Rewriting the source keeps the target, whether or not the write lands. *)
Lemma target_put_source h l p e :
  target (edge_at (put_edge h l (set_source p (edge_at h l))) e) = target (edge_at h e).
Proof. rewrite edge_at_put_edge. case_decide as Hd; [by destruct Hd as [<- _] | done]. Qed.

(** The two writes the link force makes to one edge, taken together. *)
Lemma edge_at_resolved h l p q e :
  edge_at (put_edge (put_edge h l (set_source p (edge_at h l))) l
                    (set_target q (edge_at (put_edge h l (set_source p (edge_at h l))) l))) e
  = if decide (l = e ∧ l < length (hedges h))
    then mkEdge (eid (edge_at h l)) p q (elabel (edge_at h l))
    else edge_at h e.
Proof.
  rewrite edge_at_put_edge, length_put_edge.
  case_decide as Hd.
  - destruct Hd as [_ Hl]. by rewrite edge_at_put_edge_eq.
  - by rewrite edge_at_put_edge, decide_False.
Qed.

Lemma resolve_endpoint_inl m p err :
  resolve_endpoint m p = inl err →
  ∃ s, p = EpId s ∧ m !! s = None ∧ err = NodeNotFound s.
Proof.
  destruct p as [s|r]; simpl; [|done].
  destruct (m !! s) eqn:Hs; [done|]. intros [= <-]. by exists s.
Qed.

Lemma resolve_endpoint_inr m p q :
  resolve_endpoint m p = inr q →
  ∃ r, q = EpNode r ∧ (p = EpNode r ∨ ∃ s, p = EpId s ∧ m !! s = Some r).
Proof.
  destruct p as [s|r]; simpl.
  - destruct (m !! s) as [r|] eqn:Hs; [|done]. intros [= <-]. exists r. eauto.
  - intros [= <-]. exists r. eauto.
Qed.

Lemma resolve_links_hnodes m ls : ∀ h, hnodes (resolve_links h m ls).1 = hnodes h.
Proof.
  induction ls as [|l ls IH]; intros h; simpl; [done|].
  destruct (resolve_endpoint m (source (edge_at h l))); [done|].
  destruct (resolve_endpoint m (target _)); [done|].
  by rewrite IH.
Qed.

(** A dangling edge among the links makes the initialisation of the link
    force raise, on an id that is not in the table. *)
Lemma resolve_links_dangling m ls : ∀ h e,
  e ∈ ls → dangling h m e →
  ∃ s, (resolve_links h m ls).2 = Some (NodeNotFound s) ∧ m !! s = None.
Proof.
  induction ls as [|l ls IH]; intros h e Hin Hd; [by apply elem_of_nil in Hin|].
  simpl.
  destruct (resolve_endpoint m (source (edge_at h l))) as [err|p] eqn:Hs.
  { apply resolve_endpoint_inl in Hs as (s & _ & Hm & ->). by exists s. }
  destruct (resolve_endpoint m (target _)) as [err|q] eqn:Ht.
  { apply resolve_endpoint_inl in Ht as (s & _ & Hm & ->). by exists s. }
  rewrite target_put_source in Ht.
  assert (Hne : l ≠ e).
  { intros ->. destruct Hd as (s & [Hsrc|Htgt] & Hm).
    - rewrite Hsrc in Hs. simpl in Hs. by rewrite Hm in Hs.
    - rewrite Htgt in Ht. simpl in Ht. by rewrite Hm in Ht. }
  apply (IH _ e).
  - apply elem_of_cons in Hin as [->|Hin]; [done | exact Hin].
  - destruct Hd as (s & Hd & Hm). exists s. split; [|done].
    by rewrite !edge_at_put_edge_ne.
Qed.

(** What a link looks like while the link force is being initialised: each
    endpoint still leads to the id it named. *)
Lemma resolve_links_ids m ls : ∀ h h',
  (∀ s r, m !! s = Some r → id (node_at h r) = s) →
  resolve_links h m ls = (h', None) →
  ∀ e, App.endpoint_id h' (source (edge_at h' e)) = App.endpoint_id h (source (edge_at h e)) ∧
       App.endpoint_id h' (target (edge_at h' e)) = App.endpoint_id h (target (edge_at h e)).
Proof.
  induction ls as [|l ls IH]; intros h h' Hm; simpl.
  { by intros [= <-]. }
  destruct (resolve_endpoint m (source (edge_at h l))) as [err|p] eqn:Hs; [done|].
  destruct (resolve_endpoint m (target _)) as [err|q] eqn:Ht; [done|].
  intros Hrest e.
  rewrite target_put_source in Ht.
  edestruct (λ Hm', IH _ h' Hm' Hrest e) as [-> ->]; [exact Hm|].
  rewrite edge_at_resolved.
  assert (Hid : ∀ h0 x, hnodes h0 = hnodes h → App.endpoint_id h0 x = App.endpoint_id h x).
  { intros h0 [s|r] Hh; simpl; [done|]. unfold node_at. by rewrite Hh. }
  rewrite !Hid by done.
  apply resolve_endpoint_inr in Hs as (r & -> & Hs).
  apply resolve_endpoint_inr in Ht as (r' & -> & Ht).
  case_decide as Hd; [|done].
  destruct Hd as [<- Hl]. simpl. split.
  - destruct Hs as [->|(s & -> & Hs)]; simpl; [done | by apply Hm].
  - destruct Ht as [->|(s & -> & Ht)]; simpl; [done | by apply Hm].
Qed.

(** After a successful initialisation every link inside the store has both
    endpoints resolved: an endpoint that was an object is that object, an
    endpoint that was an id is the node the table has under that id. *)
Lemma resolve_links_resolved m ls : ∀ h h',
  resolve_links h m ls = (h', None) →
  (∀ e s t, source (edge_at h e) = EpNode s → target (edge_at h e) = EpNode t →
            source (edge_at h' e) = EpNode s ∧ target (edge_at h' e) = EpNode t) ∧
  ∀ e, e ∈ ls → e < length (hedges h) →
       ∃ s t, source (edge_at h' e) = EpNode s ∧ target (edge_at h' e) = EpNode t ∧
              (source (edge_at h e) = EpNode s ∨
               ∃ i, source (edge_at h e) = EpId i ∧ m !! i = Some s) ∧
              (target (edge_at h e) = EpNode t ∨
               ∃ i, target (edge_at h e) = EpId i ∧ m !! i = Some t).
Proof.
  induction ls as [|l ls IH]; intros h h'; simpl.
  { intros [= <-]. split; [done|]. intros e He. by apply elem_of_nil in He. }
  destruct (resolve_endpoint m (source (edge_at h l))) as [err|p] eqn:Hs; [done|].
  destruct (resolve_endpoint m (target _)) as [err|q] eqn:Ht; [done|].
  intros Hrest. rewrite target_put_source in Ht.
  set (h1 := put_edge h l (set_source p (edge_at h l))) in *.
  set (h2 := put_edge h1 l (set_target q (edge_at h1 l))) in *.
  destruct (IH h2 h' Hrest) as [Hkeep Hall].
  apply resolve_endpoint_inr in Hs as (r & -> & Hs).
  apply resolve_endpoint_inr in Ht as (r' & -> & Ht).
  assert (Hl2 : length (hedges h2) = length (hedges h))
    by (unfold h2, h1; by rewrite !length_put_edge).
  assert (Hstep : ∀ e, edge_at h2 e =
            if decide (l = e ∧ l < length (hedges h))
            then mkEdge (eid (edge_at h l)) (EpNode r) (EpNode r') (elabel (edge_at h l))
            else edge_at h e).
  { intros e. unfold h2, h1. apply edge_at_resolved. }
  split.
  - intros e s t Hse Ht'. apply Hkeep; rewrite Hstep;
      destruct (decide (l = e ∧ l < length (hedges h))) as [Hd|Hd]; try done.
    + destruct Hd as [<- _]. simpl. rewrite Hse in Hs.
      destruct Hs as [[= ->]|(? & ? & _)]; done.
    + destruct Hd as [<- _]. simpl. rewrite Ht' in Ht.
      destruct Ht as [[= ->]|(? & ? & _)]; done.
  - intros e He Hlt. apply elem_of_cons in He as [->|He].
    + destruct (Hkeep l r r') as [Hs' Ht'].
      * rewrite Hstep. by rewrite decide_True.
      * rewrite Hstep. by rewrite decide_True.
      * by exists r, r'.
    + destruct (Hall e He) as (s & t & Hs' & Ht' & Hso & Hto); [lia|].
      exists s, t. split_and!; try done.
      * rewrite Hstep in Hso.
        destruct (decide (l = e ∧ l < length (hedges h))) as [Hd|Hd]; [|done].
        destruct Hd as [<- _]. simpl in Hso.
        destruct Hso as [[= <-]|(i & ? & _)]; done.
      * rewrite Hstep in Hto.
        destruct (decide (l = e ∧ l < length (hedges h))) as [Hd|Hd]; [|done].
        destruct Hd as [<- _]. simpl in Hto.
        destruct Hto as [[= <-]|(i & ? & _)]; done.
Qed.

End Links.

Section RenderEffect.
Context `{JSNumber} `{!D3.Physics}.
Import D3 GraphCanvas Contract.

Lemma endpoint_id_ids h h' p :
  (∀ r, id (node_at h' r) = id (node_at h r)) →
  App.endpoint_id h' p = App.endpoint_id h p.
Proof. intros Hid. destruct p; simpl; [done | apply Hid]. Qed.

(** C1, as amended.  [getGraph] hands out the working copy's edge objects as
    the simulation holds them: once the render effect has set the simulation
    up, the nodes of the exported graph are the nodes of the stored
    simulation (the node objects of [activeGraph]), its edges are the edges
    of [activeGraph], and both ends of every such edge are node objects, not
    id strings, each carrying the id the edge named, so that the plain id
    can be read back from it.  An end the working copy held as an id string
    has become one of the live nodes; an end it already held as an object is
    still that object. *)
Theorem getGraph_edges_resolved h st h' st' :
  attached st = true →
  (∀ e, e ∈ edges (activeGraph st) → e < length (hedges h)) →
  render_effect h st = Completed h' st' →
  sim_nodes <$> simulationRef st' = Some (nodes (getGraph st')) ∧
  nodes (getGraph st') = nodes (activeGraph st) ∧
  edges (getGraph st') = edges (activeGraph st) ∧
  Forall (λ e, ∃ s t,
            source (edge_at h' e) = EpNode s ∧ target (edge_at h' e) = EpNode t ∧
            id (node_at h' s) = App.endpoint_id h (source (edge_at h e)) ∧
            id (node_at h' t) = App.endpoint_id h (target (edge_at h e)) ∧
            match source (edge_at h e) with
            | EpId _ => s ∈ nodes (getGraph st')
            | EpNode r => s = r
            end ∧
            match target (edge_at h e) with
            | EpId _ => t ∈ nodes (getGraph st')
            | EpNode r => t = r
            end)
         (edges (getGraph st')).
Proof.
  intros Hatt Hlive. unfold render_effect. rewrite Hatt; simpl.
  unfold force_link; simpl.
  set (ns := nodes (activeGraph st)).
  set (h1 := initialize_nodes h 0 ns).
  destruct (initialize_nodes_spec ns h 0) as (He1 & _ & Hid1). fold h1 in He1, Hid1.
  destruct (resolve_links h1 (map_by_id h1 ns) (edges (activeGraph st)))
    as [h2 [err|]] eqn:Hres; [done|].
  intros [= <- <-]. unfold getGraph; simpl. split; [done|]. split; [done|].
  split; [done|].
  assert (Hm : ∀ s r, map_by_id h1 ns !! s = Some r → id (node_at h1 r) = s)
    by (intros s r Hs; by apply map_by_id_Some in Hs as [_ ?]).
  pose proof (resolve_links_ids _ _ _ _ Hm Hres) as Hids.
  destruct (resolve_links_resolved _ _ _ _ Hres) as [_ Hall].
  assert (Hn2 : ∀ r, id (node_at h2 r) = id (node_at h r)).
  { intros r. rewrite <- Hid1. unfold node_at.
    by rewrite <- (resolve_links_hnodes (map_by_id h1 ns) (edges (activeGraph st)) h1), Hres. }
  assert (Hedge : ∀ e, edge_at h1 e = edge_at h e) by (intros e; unfold edge_at; by rewrite He1).
  apply Forall_forall. intros e He.
  destruct (Hall e He) as (s & t & Hs & Ht & Hso & Hto); [rewrite He1; by apply Hlive|].
  exists s, t. destruct (Hids e) as [Hsi Hti].
  rewrite Hs in Hsi. rewrite Ht in Hti. simpl in Hsi, Hti.
  rewrite Hedge in Hso, Hto, Hsi, Hti.
  rewrite (endpoint_id_ids h h1) in Hsi, Hti by done.
  split_and!; try done.
  - destruct Hso as [->|(i & -> & Hi)]; [done|]. by apply map_by_id_Some in Hi as [? _].
  - destruct Hto as [->|(i & -> & Hi)]; [done|]. by apply map_by_id_Some in Hi as [? _].
Qed.

(** The render effect on a working copy with a dangling edge. *)
Lemma render_effect_dangling h st e s :
  attached st = true →
  e ∈ edges (activeGraph st) →
  (source (edge_at h e) = EpId s ∨ target (edge_at h e) = EpId s) →
  (∀ n, n ∈ nodes (activeGraph st) → id (node_at h n) ≠ s) →
  ∃ s' h',
    render_effect h st =
      Threw (NodeNotFound s') h'
            (mkCanvas (graph st) (activeGraph st) (simulationRef st) (attached st)
                      (clientWidth st) (clientHeight st) [SvgGroup])
            (forceSimulation h (nodes (activeGraph st)) (force_config st)).2 ∧
    ∀ n, n ∈ nodes (activeGraph st) → id (node_at h n) ≠ s'.
Proof.
  intros Hatt He Hends Hnone. unfold render_effect. rewrite Hatt; simpl.
  unfold force_link; simpl.
  set (ns := nodes (activeGraph st)).
  set (h1 := initialize_nodes h 0 ns).
  destruct (initialize_nodes_spec ns h 0) as (He1 & _ & Hid1). fold h1 in He1, Hid1.
  assert (Hd : dangling h1 (map_by_id h1 ns) e).
  { exists s. split.
    - unfold edge_at. rewrite He1. exact Hends.
    - apply map_by_id_None. intros n Hn. rewrite Hid1. by apply Hnone. }
  destruct (resolve_links_dangling _ _ _ _ He Hd) as (s' & Hres & Hs').
  destruct (resolve_links h1 (map_by_id h1 ns) (edges (activeGraph st)))
    as [h2 o] eqn:Hrl. simpl in Hres. subst o.
  exists s', h2. split; [done|].
  intros n Hn. rewrite <- Hid1. revert n Hn. by apply map_by_id_None.
Qed.

(** C3, as amended.  A snapshot with an edge whose source or target id
    matches no node id is not turned away when it is handed over:
    reconciliation copies it, the edge included (the working copy has every
    edge of the snapshot, with the same JSON value).  The failure comes from
    the engine, inside the render effect: the link force raises "node not
    found" for an id that no node of the snapshot carries.  By then the
    effect has removed the previous scene and appended the empty zoom group;
    nothing of the new graph is drawn and no simulation is stored (the
    reference still holds the previous simulation, stopped).  The simulation
    the effect had created over the working copy is left running, and the
    component ends unmounted. *)
Theorem update_dangling_edge_throws h st g e s :
  attached st = true →
  (∀ sim r, simulationRef st = Some sim → r ∈ sim_nodes sim → r < length (hnodes h)) →
  e ∈ edges g →
  (source (edge_at h e) = EpId s ∨ target (edge_at h e) = EpId s) →
  (∀ n, n ∈ nodes g → id (node_at h n) ≠ s) →
  ∃ h1 st1 s' h' st' stray,
    reconcile_effect h (set_graph g st) = (h1, st1) ∧
    Forall2 (λ e0 e1, Json.stringify_edge h1 (edge_at h1 e1)
                      = Json.stringify_edge h (edge_at h e0))
            (edges g) (edges (activeGraph st1)) ∧
    render_effect h1 (cleanup st1) = Threw (NodeNotFound s') h' st' stray ∧
    (∀ n, n ∈ nodes g → id (node_at h n) ≠ s') ∧
    graph st' = g ∧
    activeGraph st' = activeGraph st1 ∧
    scene st' = [SvgGroup] ∧
    simulationRef st' = stop <$> simulationRef st ∧
    running stray = true ∧
    sim_nodes stray = nodes (activeGraph st1) ∧
    update h st g = Threw (NodeNotFound s') h' (unmounted st') stray.
Proof.
  intros Hatt Hlive He Hends Hnone. unfold update, reconcile_effect; simpl.
  destruct (reconcile h (simulationRef st) g) as [h1 g1] eqn:Hrec.
  destruct (reconcile_spec _ _ _ _ _ Hlive Hrec) as (_ & Hgn & Hge & Hnodes & Hedges).
  (* ids of the copy are the ids of the snapshot *)
  assert (Hids : ∀ x, (∀ n, n ∈ nodes g → id (node_at h n) ≠ x) ↔
                      (∀ n', n' ∈ nodes g1 → id (node_at h1 n') ≠ x)).
  { intros x. split.
    - intros Hx n' Hn'. apply list_elem_of_lookup in Hn' as [i Hi].
      destruct (Forall2_lookup_r _ _ _ _ _ Hnodes Hi) as (n & Hn & Hr).
      destruct Hr as (-> & _). apply Hx. by eapply list_elem_of_lookup_2.
    - intros Hx n Hn. apply list_elem_of_lookup in Hn as [i Hi].
      destruct (Forall2_lookup_l _ _ _ _ _ Hnodes Hi) as (n' & Hn' & Hr).
      destruct Hr as (<- & _). apply Hx. by eapply list_elem_of_lookup_2. }
  apply list_elem_of_lookup in He as [i Hi].
  destruct (Forall2_lookup_l _ _ _ _ _ Hedges Hi) as (e' & He' & Hj).
  assert (Hends' : source (edge_at h1 e') = EpId s ∨ target (edge_at h1 e') = EpId s).
  { unfold Json.stringify_edge in Hj. injection Hj as _ Hsrc Htgt _.
    destruct Hends as [Hs|Ht]; [left | right].
    - rewrite Hs in Hsrc.
      destruct (source (edge_at h1 e')); simpl in Hsrc; [by injection Hsrc as -> | done].
    - rewrite Ht in Htgt.
      destruct (target (edge_at h1 e')); simpl in Htgt; [by injection Htgt as -> | done]. }
  edestruct (render_effect_dangling h1
               (cleanup (set_activeGraph g1 (set_graph g st))) e' s)
    as (s' & h' & Hthrew & Hs'); simpl; try done.
  - by eapply list_elem_of_lookup_2.
  - by apply Hids.
  - eexists h1, _, s', h', _, _. split; [reflexivity|]. simpl.
    split; [exact Hedges|]. split; [exact Hthrew|].
    rewrite Hthrew. simpl. split_and!; try done.
    by apply Hids.
Qed.

End RenderEffect.

Section RenderExamples.
Import D3 GraphCanvas Contract Examples.

(** C1's theorem at the scenario graph [a --is_a--> b]. *)
Lemma getGraph_edges_resolved_witness :
  sim_nodes <$> simulationRef rendered_ab.2 = Some (nodes (getGraph rendered_ab.2)) ∧
  nodes (getGraph rendered_ab.2) = nodes (activeGraph canvas0) ∧
  edges (getGraph rendered_ab.2) = edges (activeGraph canvas0) ∧
  Forall (λ e, ∃ s t,
            source (edge_at rendered_ab.1 e) = EpNode s ∧
            target (edge_at rendered_ab.1 e) = EpNode t ∧
            id (node_at rendered_ab.1 s) = App.endpoint_id heap_ab (source (edge_at heap_ab e)) ∧
            id (node_at rendered_ab.1 t) = App.endpoint_id heap_ab (target (edge_at heap_ab e)) ∧
            match source (edge_at heap_ab e) with
            | EpId _ => s ∈ nodes (getGraph rendered_ab.2)
            | EpNode r => s = r
            end ∧
            match target (edge_at heap_ab e) with
            | EpId _ => t ∈ nodes (getGraph rendered_ab.2)
            | EpNode r => t = r
            end)
         (edges (getGraph rendered_ab.2)).
Proof.
  apply (getGraph_edges_resolved heap_ab canvas0 rendered_ab.1 rendered_ab.2).
  - reflexivity.
  - simpl. intros e He. apply elem_of_cons in He as [->|He]; [lia|].
    by apply elem_of_nil in He.
  - vm_compute. reflexivity.
Defined.

(** C1 as stated fails: after mounting [a --is_a--> b], the one edge of the
    graph [getGraph] returns has node references as source and target, not id
    strings. *)
Lemma getGraph_returns_resolved_edge :
  edges (getGraph mounted_ab.2) = [1] ∧
  source (edge_at mounted_ab.1 1) = EpNode 2 ∧
  target (edge_at mounted_ab.1 1) = EpNode 3 ∧
  is_id_string (source (edge_at mounted_ab.1 1)) = false ∧
  is_id_string (target (edge_at mounted_ab.1 1)) = false.
Proof. vm_compute. by split_and!. Qed.

(** An end that is an object when the snapshot is handed over.  Mounting
    with [a --is_a--> b] as the first prop lets the link force of the first
    render rewrite the prop's own edge (object 0).  Handing that prop to the
    canvas again, the copy of its edge comes with copies of the two node
    objects (6 and 7) as ends; the link force leaves them, and they are not
    the live nodes (4 and 5), though they carry the ids [a] and [b]. *)
Example rehanded_prop_scenario :
  let r := outcome (update mounted_ab.1 mounted_ab.2 graph_ab) in
  source (edge_at mounted_ab.1 0) = EpNode 0 ∧
  nodes (getGraph r.2) = [4; 5] ∧
  edges (getGraph r.2) = [2] ∧
  source (edge_at r.1 2) = EpNode 6 ∧
  target (edge_at r.1 2) = EpNode 7 ∧
  id (node_at r.1 6) = "a" ∧
  id (node_at r.1 7) = "b".
Proof. vm_compute. by split_and!. Qed.

(** C3's theorem at a snapshot whose edge [a -> ghost] names a node that is
    not there, handed to the canvas showing [a -> b]. *)
Lemma update_dangling_edge_throws_witness :
  ∃ h1 st1 s' h' st' stray,
    reconcile_effect (heap_dangling ticked_ab.1)
                     (set_graph (graph_dangling ticked_ab.1) ticked_ab.2) = (h1, st1) ∧
    Forall2 (λ e0 e1, Json.stringify_edge h1 (edge_at h1 e1)
                      = Json.stringify_edge (heap_dangling ticked_ab.1)
                                            (edge_at (heap_dangling ticked_ab.1) e0))
            (edges (graph_dangling ticked_ab.1)) (edges (activeGraph st1)) ∧
    render_effect h1 (cleanup st1) = Threw (NodeNotFound s') h' st' stray ∧
    (∀ n, n ∈ nodes (graph_dangling ticked_ab.1) →
          id (node_at (heap_dangling ticked_ab.1) n) ≠ s') ∧
    GraphCanvas.graph st' = graph_dangling ticked_ab.1 ∧
    activeGraph st' = activeGraph st1 ∧
    scene st' = [SvgGroup] ∧
    simulationRef st' = stop <$> simulationRef ticked_ab.2 ∧
    running stray = true ∧
    sim_nodes stray = nodes (activeGraph st1) ∧
    update (heap_dangling ticked_ab.1) ticked_ab.2 (graph_dangling ticked_ab.1)
    = Threw (NodeNotFound s') h' (unmounted st') stray.
Proof.
  apply (update_dangling_edge_throws (heap_dangling ticked_ab.1) ticked_ab.2
           (graph_dangling ticked_ab.1) 2 "ghost").
  - vm_compute. reflexivity.
  - intros sim n Hsim Hn. vm_compute in Hsim. injection Hsim as <-.
    vm_compute. simpl in Hn.
    repeat (apply elem_of_cons in Hn as [->|Hn]); [lia | lia |].
    by apply elem_of_nil in Hn.
  - vm_compute. apply list_elem_of_here.
  - right. vm_compute. reflexivity.
  - intros n Hn. vm_compute in Hn. apply elem_of_cons in Hn as [->|Hn].
    + vm_compute. discriminate.
    + by apply elem_of_nil in Hn.
Defined.

(** C3 as stated fails.  The canvas shows [a -> b]; it is handed a snapshot
    whose only edge is [a -> ghost].  Nothing fails at the hand-over:
    reconciliation returns a working copy with the edge in it.  The error is
    raised inside the render effect, which has removed the six elements of
    the previous scene by then and leaves the empty zoom group; the
    simulation it created over the working copy is running, in no
    reference; the component ends unmounted. *)
Lemma dangling_edge_crashes_mid_render :
  edges (activeGraph (reconcile_effect (heap_dangling ticked_ab.1)
                        (set_graph (graph_dangling ticked_ab.1) ticked_ab.2)).2) = [3] ∧
  target (edge_at (reconcile_effect (heap_dangling ticked_ab.1)
                     (set_graph (graph_dangling ticked_ab.1) ticked_ab.2)).1 3)
    = EpId "ghost" ∧
  scene ticked_ab.2 = [SvgGroup; SvgDefs; SvgLine 1; SvgEdgeLabel 1; SvgNode 2; SvgNode 3] ∧
  thrown (render_effect
            (reconcile_effect (heap_dangling ticked_ab.1)
               (set_graph (graph_dangling ticked_ab.1) ticked_ab.2)).1
            (cleanup (reconcile_effect (heap_dangling ticked_ab.1)
                        (set_graph (graph_dangling ticked_ab.1) ticked_ab.2)).2))
    = Some (NodeNotFound "ghost") ∧
  scene (outcome (render_effect
            (reconcile_effect (heap_dangling ticked_ab.1)
               (set_graph (graph_dangling ticked_ab.1) ticked_ab.2)).1
            (cleanup (reconcile_effect (heap_dangling ticked_ab.1)
                        (set_graph (graph_dangling ticked_ab.1) ticked_ab.2)).2))).2
    = [SvgGroup] ∧
  thrown (update (heap_dangling ticked_ab.1) ticked_ab.2 (graph_dangling ticked_ab.1))
    = Some (NodeNotFound "ghost") ∧
  (running <$> stray_simulation
     (update (heap_dangling ticked_ab.1) ticked_ab.2 (graph_dangling ticked_ab.1)))
    = Some true ∧
  (sim_nodes <$> stray_simulation
     (update (heap_dangling ticked_ab.1) ticked_ab.2 (graph_dangling ticked_ab.1)))
    = Some [5] ∧
  attached (outcome (update (heap_dangling ticked_ab.1) ticked_ab.2
                            (graph_dangling ticked_ab.1))).2 = false ∧
  scene (outcome (update (heap_dangling ticked_ab.1) ticked_ab.2
                         (graph_dangling ticked_ab.1))).2 = [].
Proof. vm_compute. by split_and!. Qed.

End RenderExamples.

(** ** Ticks, pins and the drag handlers *)

Section Tick.
Context `{JSNumber} `{!D3.Physics}.
Import D3 GraphCanvas Contract.

Lemma node_at_put_node h r n d :
  node_at (put_node h r n) d =
  if decide (r = d ∧ r < length (hnodes h)) then n else node_at h d.
Proof.
  case_decide as Hd.
  - destruct Hd as [<- Hl]. by apply node_at_put_node_eq.
  - destruct (decide (r = d)) as [<-|Hne].
    + unfold node_at, put_node; simpl. rewrite list_insert_ge; [done | lia].
    + by apply node_at_put_node_ne.
Qed.

(** A write that keeps the pin of the node it lands on keeps every pin. *)
Lemma pins_put_node h r n d :
  fx n = fx (node_at h r) → fy n = fy (node_at h r) →
  fx (node_at (put_node h r n) d) = fx (node_at h d) ∧
  fy (node_at (put_node h r n) d) = fy (node_at h d).
Proof.
  intros Hx Hy. rewrite node_at_put_node.
  destruct (decide (r = d ∧ r < length (hnodes h))) as [[<- _]|_]; done.
Qed.

Lemma pins_integrate n : fx (integrate n) = fx n ∧ fy (integrate n) = fy n.
Proof.
  unfold integrate, integrate_y, integrate_x.
  destruct (pin_value (fx n)); simpl; destruct (pin_value (fy n)); simpl; done.
Qed.

(** The integration step puts a pinned node on its pin. *)
Lemma integrate_pinned n x0 y0 :
  fx n = PinAt x0 → fy n = PinAt y0 →
  x (integrate n) = Some x0 ∧ y (integrate n) = Some y0.
Proof.
  intros Hx Hy. unfold integrate, integrate_y, integrate_x.
  rewrite Hx; simpl. rewrite Hy; simpl. done.
Qed.

(** The integration step moves a node that is not pinned by its decayed
    velocity. *)
Lemma integrate_free n :
  pin_value (fx n) = None → pin_value (fy n) = None →
  x (integrate n) = Some (nadd (to_num (x n)) (nmul (to_num (vx n)) velocityDecay)) ∧
  y (integrate n) = Some (nadd (to_num (y n)) (nmul (to_num (vy n)) velocityDecay)).
Proof.
  intros Hx Hy. unfold integrate, integrate_y, integrate_x.
  rewrite Hx; simpl. rewrite Hy; simpl. done.
Qed.

Lemma apply_forces_spec h sim a :
  length (hnodes (apply_forces h sim a)) = length (hnodes h) ∧
  ∀ d, fx (node_at (apply_forces h sim a) d) = fx (node_at h d) ∧
       fy (node_at (apply_forces h sim a) d) = fy (node_at h d).
Proof.
  unfold apply_forces.
  generalize (zip (sim_nodes sim)
                  (forces (sim_config sim) a h (sim_links sim) (sim_nodes sim))).
  intros l. revert h. induction l as [|[r v] l IH]; intros h; simpl; [done|].
  destruct (IH (put_node h r (write_geometry v (node_at h r)))) as [Hl Hp].
  split; [by rewrite Hl, length_put_node|].
  intros d. destruct (Hp d) as [-> ->]. by apply pins_put_node.
Qed.

Lemma integrate_all_spec l : ∀ h,
  length (hnodes (foldl (λ h' r, put_node h' r (integrate (node_at h' r))) h l))
  = length (hnodes h) ∧
  ∀ d, fx (node_at (foldl (λ h' r, put_node h' r (integrate (node_at h' r))) h l) d)
       = fx (node_at h d) ∧
       fy (node_at (foldl (λ h' r, put_node h' r (integrate (node_at h' r))) h l) d)
       = fy (node_at h d).
Proof.
  induction l as [|r l IH]; intros h; simpl; [done|].
  destruct (IH (put_node h r (integrate (node_at h r)))) as [Hl Hp].
  split; [by rewrite Hl, length_put_node|].
  intros d. destruct (Hp d) as [-> ->].
  apply pins_put_node; apply pins_integrate.
Qed.

(** Integrating the whole node array leaves a pinned node of the array on
    its pin. *)
Lemma integrate_all_pinned d x0 y0 l : ∀ h,
  d < length (hnodes h) →
  fx (node_at h d) = PinAt x0 → fy (node_at h d) = PinAt y0 →
  d ∈ l ∨ (x (node_at h d) = Some x0 ∧ y (node_at h d) = Some y0) →
  x (node_at (foldl (λ h' r, put_node h' r (integrate (node_at h' r))) h l) d) = Some x0 ∧
  y (node_at (foldl (λ h' r, put_node h' r (integrate (node_at h' r))) h l) d) = Some y0.
Proof.
  induction l as [|r l IH]; intros h Hd Hx Hy Hor; simpl.
  { destruct Hor as [Hin|Hpos]; [by apply elem_of_nil in Hin | done]. }
  set (h1 := put_node h r (integrate (node_at h r))).
  destruct (pins_put_node h r (integrate (node_at h r)) d) as [Hx1 Hy1];
    [apply pins_integrate | apply pins_integrate |].
  apply IH.
  - unfold h1. by rewrite length_put_node.
  - unfold h1. by rewrite Hx1.
  - unfold h1. by rewrite Hy1.
  - unfold h1. rewrite node_at_put_node.
    destruct (decide (r = d ∧ r < length (hnodes h))) as [[-> _]|Hne].
    + right. by apply integrate_pinned.
    + destruct Hor as [Hin|Hpos]; [|by right].
      apply elem_of_cons in Hin as [->|Hin]; [|by left].
      exfalso. by apply Hne.
Qed.

(** Integrating an array without repetition integrates each of its nodes
    once. *)
Lemma integrate_all_at d l : ∀ h,
  d < length (hnodes h) → NoDup l → d ∈ l →
  node_at (foldl (λ h' r, put_node h' r (integrate (node_at h' r))) h l) d
  = integrate (node_at h d).
Proof.
  assert (Hout : ∀ l h, d ∉ l →
            node_at (foldl (λ h' r, put_node h' r (integrate (node_at h' r))) h l) d
            = node_at h d).
  { clear. induction l as [|r l IH]; intros h Hnin; simpl; [done|].
    apply not_elem_of_cons in Hnin as [Hne Hnin].
    rewrite IH by done. by rewrite node_at_put_node_ne. }
  induction l as [|r l IH]; intros h Hd Hnd Hin; [by apply elem_of_nil in Hin|].
  simpl. apply NoDup_cons in Hnd as [Hr Hnd].
  apply elem_of_cons in Hin as [->|Hin].
  - rewrite Hout by done. by rewrite node_at_put_node_eq.
  - rewrite IH; [|by rewrite length_put_node|done|done].
    rewrite node_at_put_node_ne; [done|]. by intros ->.
Qed.

Lemma tick_nodes h sim : sim_nodes (tick h sim).2 = sim_nodes sim.
Proof. reflexivity. Qed.

(** One tick leaves a pinned node of the simulation on its pin, pinned. *)
Lemma tick_pinned h sim d x0 y0 :
  d ∈ sim_nodes sim → d < length (hnodes h) →
  fx (node_at h d) = PinAt x0 → fy (node_at h d) = PinAt y0 →
  d < length (hnodes (tick h sim).1) ∧
  fx (node_at (tick h sim).1 d) = PinAt x0 ∧ fy (node_at (tick h sim).1 d) = PinAt y0 ∧
  x (node_at (tick h sim).1 d) = Some x0 ∧ y (node_at (tick h sim).1 d) = Some y0.
Proof.
  intros Hin Hd Hx Hy. unfold tick; simpl.
  set (a := next_alpha sim). set (h1 := apply_forces h sim a).
  destruct (apply_forces_spec h sim a) as [Hl1 Hp1]. fold h1 in Hl1, Hp1.
  destruct (Hp1 d) as [Hx1 Hy1]. rewrite Hx in Hx1. rewrite Hy in Hy1.
  destruct (integrate_all_spec (sim_nodes sim) h1) as [Hl2 Hp2].
  destruct (Hp2 d) as [Hx2 Hy2].
  split_and!.
  - rewrite Hl2, Hl1. done.
  - by rewrite Hx2.
  - by rewrite Hy2.
  - apply (integrate_all_pinned d x0 y0); [by rewrite Hl1 | done | done | by left].
  - apply (integrate_all_pinned d x0 y0); [by rewrite Hl1 | done | done | by left].
Qed.

Lemma ticks_pinned n : ∀ h sim d x0 y0,
  d ∈ sim_nodes sim → d < length (hnodes h) →
  fx (node_at h d) = PinAt x0 → fy (node_at h d) = PinAt y0 →
  x (node_at (ticks (S n) h sim).1 d) = Some x0 ∧
  y (node_at (ticks (S n) h sim).1 d) = Some y0 ∧
  fx (node_at (ticks (S n) h sim).1 d) = PinAt x0 ∧
  fy (node_at (ticks (S n) h sim).1 d) = PinAt y0.
Proof.
  induction n as [|n IH]; intros h sim d x0 y0 Hin Hd Hx Hy.
  - destruct (tick_pinned h sim d x0 y0 Hin Hd Hx Hy) as (_ & ? & ? & ? & ?).
    cbn [ticks]. by destruct (tick h sim).
  - destruct (tick_pinned h sim d x0 y0 Hin Hd Hx Hy) as (Hd' & Hx' & Hy' & _).
    pose proof (tick_nodes h sim) as Hn.
    change (ticks (S (S n)) h sim)
      with (let '(h', sim') := tick h sim in ticks (S n) h' sim').
    destruct (tick h sim) as [h' sim']. simpl in *.
    apply IH; try done. by rewrite Hn.
Qed.

(** C6.  Once the pin fields of a node of the simulation are set to
    (x0, y0), advancing the simulation by any number of ticks (one or more)
    leaves the node at exactly (x0, y0), still pinned; the net force may have
    displaced it during a tick, the integration step puts it back. *)
Theorem pinned_node_stays_put h sim d x0 y0 n :
  d ∈ sim_nodes sim → d < length (hnodes h) →
  fx (node_at h d) = PinAt x0 → fy (node_at h d) = PinAt y0 →
  x (node_at (ticks (S n) h sim).1 d) = Some x0 ∧
  y (node_at (ticks (S n) h sim).1 d) = Some y0 ∧
  fx (node_at (ticks (S n) h sim).1 d) = PinAt x0 ∧
  fy (node_at (ticks (S n) h sim).1 d) = PinAt y0.
Proof. apply ticks_pinned. Qed.

End Tick.

Section Drag.
Context `{JSNumber} `{!D3.Physics}.
Import D3 GraphCanvas Contract.

Lemma put_pins_spec h d p q :
  d < length (hnodes h) →
  node_at (put_node (put_node h d (set_fx p (node_at h d))) d
                    (set_fy q (node_at (put_node h d (set_fx p (node_at h d))) d))) d
  = set_fy q (set_fx p (node_at h d)).
Proof.
  intros Hd. rewrite node_at_put_node_eq by (by rewrite length_put_node).
  by rewrite node_at_put_node_eq.
Qed.

Lemma put_pins_length h d p q :
  length (hnodes (put_node (put_node h d p) d q)) = length (hnodes h).
Proof. by rewrite !length_put_node. Qed.

(** C5, as amended.  On drag-start the dragged node is pinned at its current
    position and, when no other drag gesture is in progress ([active] is 0),
    the simulation is re-heated: alpha target 0.3, restarted.  On drag-move
    the pin follows the pointer and the simulation is left alone.  On
    drag-end the pin is cleared to [null] and, when no other drag gesture is
    in progress, the alpha target goes back to 0; at the next tick the
    released node is integrated like any free node (moved by its decayed
    velocity from where the forces left it) instead of being put on a pin. *)
Theorem drag_lifecycle h sim event d :
  d < length (hnodes h) → NoDup (sim_nodes sim) → d ∈ sim_nodes sim →
  (fx (node_at (dragstarted h sim event d).1 d) = pin_of (x (node_at h d)) ∧
   fy (node_at (dragstarted h sim event d).1 d) = pin_of (y (node_at h d)) ∧
   alphaTarget (dragstarted h sim event d).2
     = (if Nat.eqb (active event) 0 then lit (Qmake 3 10) else alphaTarget sim) ∧
   running (dragstarted h sim event d).2
     = (if Nat.eqb (active event) 0 then true else running sim)) ∧
  (fx (node_at (dragged h sim event d).1 d) = PinAt (ev_x event) ∧
   fy (node_at (dragged h sim event d).1 d) = PinAt (ev_y event) ∧
   (dragged h sim event d).2 = sim) ∧
  (fx (node_at (dragended h sim event d).1 d) = PinNull ∧
   fy (node_at (dragended h sim event d).1 d) = PinNull ∧
   alphaTarget (dragended h sim event d).2
     = (if Nat.eqb (active event) 0 then lit (Qmake 0 1) else alphaTarget sim) ∧
   let released := dragended h sim event d in
   let pushed := node_at (apply_forces released.1 released.2 (next_alpha released.2)) d in
   x (node_at (tick released.1 released.2).1 d)
     = Some (nadd (to_num (x pushed)) (nmul (to_num (vx pushed)) velocityDecay)) ∧
   y (node_at (tick released.1 released.2).1 d)
     = Some (nadd (to_num (y pushed)) (nmul (to_num (vy pushed)) velocityDecay))).
Proof.
  intros Hd Hnd Hin. split_and!.
  - unfold dragstarted; simpl. rewrite put_pins_spec by done; simpl;
    by rewrite ?node_at_put_node_eq.
  - unfold dragstarted; simpl. rewrite put_pins_spec by done; simpl;
    by rewrite ?node_at_put_node_eq.
  - unfold dragstarted; simpl. by destruct (Nat.eqb (active event) 0).
  - unfold dragstarted; simpl. by destruct (Nat.eqb (active event) 0).
  - unfold dragged; simpl. rewrite put_pins_spec by done; simpl;
    by rewrite ?node_at_put_node_eq.
  - unfold dragged; simpl. rewrite put_pins_spec by done; simpl;
    by rewrite ?node_at_put_node_eq.
  - done.
  - unfold dragended; simpl. rewrite put_pins_spec by done; simpl;
    by rewrite ?node_at_put_node_eq.
  - unfold dragended; simpl. rewrite put_pins_spec by done; simpl;
    by rewrite ?node_at_put_node_eq.
  - unfold dragended; simpl. by destruct (Nat.eqb (active event) 0).
  - intros released pushed.
    assert (Hnodes : sim_nodes released.2 = sim_nodes sim).
    { unfold released, dragended; simpl. by destruct (Nat.eqb (active event) 0). }
    assert (Hlen : length (hnodes released.1) = length (hnodes h)).
    { unfold released, dragended. apply put_pins_length. }
    assert (Hpin : fx (node_at released.1 d) = PinNull ∧ fy (node_at released.1 d) = PinNull).
    { unfold released, dragended; simpl. rewrite put_pins_spec by done; simpl;
    by rewrite ?node_at_put_node_eq. }
    destruct (apply_forces_spec released.1 released.2 (next_alpha released.2)) as [Hl1 Hp1].
    destruct (Hp1 d) as [Hx1 Hy1]. destruct Hpin as [Hx0 Hy0].
    rewrite Hx0 in Hx1. rewrite Hy0 in Hy1.
    unfold tick; cbn [fst].
    rewrite integrate_all_at; [| by rewrite Hl1, Hlen | by rewrite Hnodes | by rewrite Hnodes].
    fold pushed. apply integrate_free.
    + unfold pushed. by rewrite Hx1.
    + unfold pushed. by rewrite Hy1.
Qed.

End Drag.

Section DragExamples.
Import D3 GraphCanvas Contract Examples.

(** C5's theorem at node [a] of the mounted canvas, dragged to (100, 100). *)
Lemma drag_lifecycle_witness :
  let h := mounted_ab.1 in
  let sim := the_simulation mounted_ab.2 in
  let event := drag_to_100 in
  let d := 2 in
  (fx (node_at (dragstarted h sim event d).1 d) = pin_of (x (node_at h d)) ∧
   fy (node_at (dragstarted h sim event d).1 d) = pin_of (y (node_at h d)) ∧
   alphaTarget (dragstarted h sim event d).2
     = (if Nat.eqb (active event) 0 then lit (Qmake 3 10) else alphaTarget sim) ∧
   running (dragstarted h sim event d).2
     = (if Nat.eqb (active event) 0 then true else running sim)) ∧
  (fx (node_at (dragged h sim event d).1 d) = PinAt (ev_x event) ∧
   fy (node_at (dragged h sim event d).1 d) = PinAt (ev_y event) ∧
   (dragged h sim event d).2 = sim) ∧
  (fx (node_at (dragended h sim event d).1 d) = PinNull ∧
   fy (node_at (dragended h sim event d).1 d) = PinNull ∧
   alphaTarget (dragended h sim event d).2
     = (if Nat.eqb (active event) 0 then lit (Qmake 0 1) else alphaTarget sim) ∧
   let released := dragended h sim event d in
   let pushed := node_at (apply_forces released.1 released.2 (next_alpha released.2)) d in
   x (node_at (tick released.1 released.2).1 d)
     = Some (nadd (to_num (x pushed)) (nmul (to_num (vx pushed)) velocityDecay)) ∧
   y (node_at (tick released.1 released.2).1 d)
     = Some (nadd (to_num (y pushed)) (nmul (to_num (vy pushed)) velocityDecay))).
Proof.
  intros h sim event d.
  apply (drag_lifecycle h sim event d).
  - vm_compute. lia.
  - vm_compute. apply NoDup_cons. split.
    + intros Hin. apply elem_of_cons in Hin as [Hin|Hin]; [discriminate|].
      by apply elem_of_nil in Hin.
    + apply NoDup_singleton.
  - vm_compute. apply list_elem_of_here.
Defined.

(** C5 as stated fails: with two fingers down ([a] grabbed first, then [b]),
    lifting the first finger is a drag-end with one other gesture still in
    progress; it clears the pin of [a] but leaves the alpha target at 0.3
    instead of returning it to 0. *)
Lemma dragended_keeps_alpha_target_during_other_drag :
  let lift := mkDrag 1 (Qmake 100 1) (Qmake 100 1) in
  let after := dragended two_fingers.1 two_fingers.2 lift 2 in
  alphaTarget two_fingers.2 = Qmake 3 10 ∧
  fx (node_at after.1 2) = PinNull ∧
  alphaTarget after.2 = Qmake 3 10 ∧
  alphaTarget after.2 ≠ lit (Qmake 0 1).
Proof. vm_compute. split_and!; (reflexivity || discriminate). Qed.

(** C6's theorem at node [a] of the mounted canvas, pinned at (100, 100) by
    the drag handlers, four ticks on. *)
Lemma pinned_node_stays_put_witness :
  let h := dragged_ab.1 in
  let sim := dragged_ab.2 in
  x (node_at (ticks 4 h sim).1 2) = Some (Qmake 100 1) ∧
  y (node_at (ticks 4 h sim).1 2) = Some (Qmake 100 1) ∧
  fx (node_at (ticks 4 h sim).1 2) = PinAt (Qmake 100 1) ∧
  fy (node_at (ticks 4 h sim).1 2) = PinAt (Qmake 100 1).
Proof.
  intros h sim.
  apply (pinned_node_stays_put h sim 2 (Qmake 100 1) (Qmake 100 1) 3).
  - vm_compute. apply list_elem_of_here.
  - vm_compute. lia.
  - vm_compute. reflexivity.
  - vm_compute. reflexivity.
Defined.

End DragExamples.

(** ** Selection, export without a simulation, saving, generating *)

Section Host.
Context `{JSNumber} `{!D3.Physics}.
Import D3 GraphCanvas App.

(** C4.  A click on a node calls [onNodeSelect] with the node and
    [onEdgeSelect] with nothing, a click on an edge does the reverse, a click
    on the background calls both with nothing; the node and edge handlers
    stop propagation, so the background handler does not run after them;
    in the host, whose callbacks are the two state setters, at most one of
    the two selections is set after any click. *)
Theorem click_selection_exclusive (t : ClickTarget) (event : ClickEvent)
  (n : NodeRef) (e : EdgeRef) (st : AppState) :
  click t = match t with
            | OnNode d => [onNodeSelect (Some d); onEdgeSelect None]
            | OnEdge d => [onEdgeSelect (Some d); onNodeSelect None]
            | OnBackground => [onNodeSelect None; onEdgeSelect None]
            end ∧
  propagationStopped (node_click event n).1 = true ∧
  propagationStopped (edge_click event e).1 = true ∧
  selectedNode (run st (on_callback <$> click t))
    = (if t is OnNode d then Some d else None) ∧
  selectedEdge (run st (on_callback <$> click t))
    = (if t is OnEdge d then Some d else None) ∧
  (selectedNode (run st (on_callback <$> click t)) = None ∨
   selectedEdge (run st (on_callback <$> click t)) = None).
Proof.
  destruct t as [d|d|]; simpl; split_and!; try done; by (left + right).
Qed.

(** C9.  Without a simulation ([simulationRef.current] is [null]),
    [getGraph] returns [activeGraph]; it is a total function, there is
    nothing in it that can raise. *)
Theorem getGraph_without_simulation (st : Canvas) :
  simulationRef st = None → getGraph st = activeGraph st.
Proof. intros Hnone. unfold getGraph. by rewrite Hnone. Qed.


Lemma cleanNode_spec n :
  id (cleanNode n) = id n ∧ label (cleanNode n) = label n ∧
  type (cleanNode n) = type n ∧ description (cleanNode n) = description n ∧
  x (cleanNode n) = x n ∧ y (cleanNode n) = y n ∧
  vx (cleanNode n) = None ∧ vy (cleanNode n) = None ∧
  fx (cleanNode n) = PinUndefined ∧ fy (cleanNode n) = PinUndefined.
Proof. unfold cleanNode. by destruct (x n), (y n). Qed.


(** C8.  When generation fails, [handleGenerate] performs no [setGraph]: the
    graph in the state is the one from before the call, and the failure is
    shown in an alert; the new graph replaces the displayed one only when
    generation succeeds (and then nothing is alerted).  Either way the
    selection is cleared and the busy flag is reset. *)
Theorem handleGenerate_failure_keeps_graph st error newGraph :
  forallb (λ a, negb (is_setGraph a)) (handleGenerate (inl error)) = true ∧
  graph (run st (handleGenerate (inl error))) = graph st ∧
  alerts (run st (handleGenerate (inl error)))
    = alerts st ++ ["Failed to generate ontology. Please try again or check your API key."] ∧
  isGenerating (run st (handleGenerate (inl error))) = false ∧
  graph (run st (handleGenerate (inr newGraph))) = newGraph ∧
  alerts (run st (handleGenerate (inr newGraph))) = alerts st ∧
  isGenerating (run st (handleGenerate (inr newGraph))) = false.
Proof. by split_and!. Qed.

(** C10.  With an empty API key (the variable is unset, or set to the empty
    string), [generateOntology] rejects with the missing-key error before
    any client is constructed or request issued: no effect is performed, the
    store is untouched, the promise does not resolve to a graph. *)
Theorem generateOntology_missing_key (o : GeminiService.Outside) (prompt : string)
  (h : Heap) :
  GeminiService.apiKey_of None = "" ∧
  GeminiService.apiKey_of (Some "") = "" ∧
  GeminiService.generateOntology o "" prompt h
    = ([], h, inl (GeminiService.mkError
                     "API Key is missing. Please check your environment configuration.")).
Proof. by split_and!. Qed.

End Host.

Section HostExamples.
Import D3 GraphCanvas App Examples.

(** C9's theorem at the first render of the scenario graph, before any
    simulation exists. *)
Lemma getGraph_without_simulation_witness : getGraph canvas0 = activeGraph canvas0.
Proof. apply (getGraph_without_simulation canvas0). reflexivity. Defined.


(** The saved form of the mounted scenario graph, computed: the edge is back
    to [a -> b], the nodes carry their positions only. *)
Example saved_scenario :
  data <$> head (savedOntologies (handleSave (Some "demo") 7 8 mounted_ab.1
                                             (Some mounted_ab.2) app0))
  = Some (mkSavedGraph
            [placed "a" "A" (Qmake 0 1) (Qmake 0 1);
             placed "b" "B" (Qmake 10 1) (Qmake 0 1)]
            [mkEdge "e1" (EpId "a") (EpId "b") "is_a"]).
Proof. vm_compute. reflexivity. Qed.

(** The generation service with a key: the client is constructed and the
    request issued; an empty answer is rejected and logged, a parsed answer
    becomes a graph of fresh objects whose edges got their ids. *)
Example generateOntology_no_response :
  GeminiService.generateOntology outside0 "key" "cats" empty_heap
  = ([GeminiService.NewGoogleGenAI "key";
      GeminiService.GenerateContent "gemini-2.5-flash" "cats";
      GeminiService.ConsoleError (GeminiService.mkError "No response from AI")],
     empty_heap, inl (GeminiService.mkError "No response from AI")).
Proof. reflexivity. Qed.

Example generateOntology_success :
  GeminiService.generateOntology outside1 "key" "cats" empty_heap
  = ([GeminiService.NewGoogleGenAI "key";
      GeminiService.GenerateContent "gemini-2.5-flash" "cats"],
     mkHeap [plain "a" "A"; plain "b" "B"]
            [mkEdge "edge-0-1000" (EpId "a") (EpId "b") "is_a"],
     inr (mkGraph [0; 1] [0])).
Proof. vm_compute. reflexivity. Qed.

End HostExamples.

(** ** Editing the graph *)

Section Edits.
Context `{JSNumber} `{!D3.Physics}.
Import GraphCanvas App AppEdit Integrity.

Lemma elem_of_node_ids h g s :
  s ∈ node_ids h g ↔ ∃ n, n ∈ nodes g ∧ id (node_at h n) = s.
Proof.
  unfold node_ids. rewrite list_elem_of_fmap. split.
  - intros (n & -> & Hn). by exists n.
  - intros (n & Hn & <-). by exists n.
Qed.


(** X2.  Deleting an edge: no edge with the id is left, the nodes and the other
    edges stay, and a graph without dangling edges stays one. *)
Theorem handleDeleteEdge_keeps_closed edgeId h st :
  closed h (graph st) →
  nodes (graph (run st (handleDeleteEdge edgeId h st))) = nodes (graph st) ∧
  (∀ e, e ∈ edges (graph (run st (handleDeleteEdge edgeId h st))) ↔
        e ∈ edges (graph st) ∧ eid (edge_at h e) ≠ edgeId) ∧
  closed h (graph (run st (handleDeleteEdge edgeId h st))) ∧
  selectedEdge (run st (handleDeleteEdge edgeId h st)) = None ∧
  selectedNode (run st (handleDeleteEdge edgeId h st)) = selectedNode st.
Proof.
  intros Hclosed. simpl.
  assert (He : ∀ e, e ∈ filter (λ e, eid (edge_at h e) ≠ edgeId) (edges (graph st)) ↔
                    e ∈ edges (graph st) ∧ eid (edge_at h e) ≠ edgeId).
  { intros e. rewrite list_elem_of_filter. tauto. }
  split_and!; try done.
  intros e Hin; simpl in Hin. apply He in Hin as [Hin _]. exact (Hclosed e Hin).
Qed.

(** X3.  Updating a node: the ids of the nodes are what they were, in the same
    order, the edges are untouched, so a graph without dangling edges stays
    one; every place the id had in the node array now holds the updated
    object, every other node is the object it was; the updated object is the
    selection. *)
Theorem handleUpdateNode_keeps_ids updatedNode h st :
  closed h (graph st) →
  node_ids h (graph (run st (handleUpdateNode updatedNode h st))) = node_ids h (graph st) ∧
  edges (graph (run st (handleUpdateNode updatedNode h st))) = edges (graph st) ∧
  Forall2 (λ n n', n' = (if decide (id (node_at h n) = id (node_at h updatedNode))
                         then updatedNode else n))
          (nodes (graph st)) (nodes (graph (run st (handleUpdateNode updatedNode h st)))) ∧
  closed h (graph (run st (handleUpdateNode updatedNode h st))) ∧
  selectedNode (run st (handleUpdateNode updatedNode h st)) = Some updatedNode.
Proof.
  intros Hclosed. simpl.
  assert (Hids : node_ids h
            (mkGraph ((λ n, if decide (id (node_at h n) = id (node_at h updatedNode))
                            then updatedNode else n) <$> nodes (graph st))
                     (edges (graph st)))
          = node_ids h (graph st)).
  { unfold node_ids; simpl. rewrite <- list_fmap_compose. apply list_fmap_ext.
    intros i n _; simpl. by case_decide. }
  split_and!; try done.
  - apply Forall2_fmap_r, Forall_Forall2_diag, Forall_forall. by intros n _.
  - intros e Hin; simpl in Hin. rewrite Hids. exact (Hclosed e Hin).
Qed.

End Edits.

(** ** Adding to the graph *)

Section Growth.
Context `{JSNumber} `{!D3.Physics}.
Import GraphCanvas App AppEdit Integrity.

Lemma node_at_extends h h' r :
  heap_extends h h' → r < length (hnodes h) → node_at h' r = node_at h r.
Proof. intros [Hn _] Hr. unfold node_at. by rewrite Hn. Qed.

Lemma edge_at_extends h h' r :
  heap_extends h h' → r < length (hedges h) → edge_at h' r = edge_at h r.
Proof. intros [_ He] Hr. unfold edge_at. by rewrite He. Qed.

Lemma length_extends h h' :
  heap_extends h h' →
  length (hnodes h) ≤ length (hnodes h') ∧ length (hedges h) ≤ length (hedges h').
Proof.
  assert (Hlen : ∀ A (l l' : list A),
            (∀ r, r < length l → l' !! r = l !! r) → length l ≤ length l').
  { intros A l l' Hl. destruct (decide (length l = 0)) as [|Hne]; [lia|].
    assert (Hr : length l - 1 < length l) by lia.
    destruct (lookup_lt_is_Some_2 l _ Hr) as [a Ha].
    pose proof (Hl _ Hr) as Hk. rewrite Ha in Hk. apply lookup_lt_Some in Hk. lia. }
  intros [Hn He]. split; by apply Hlen.
Qed.

Lemma heap_extends_alloc_node h n : heap_extends h (alloc_node h n).1.
Proof. split; intros r Hr; simpl; [by rewrite lookup_app_l | done]. Qed.

Lemma heap_extends_alloc_edge h e : heap_extends h (alloc_edge h e).1.
Proof. split; intros r Hr; simpl; [done | by rewrite lookup_app_l]. Qed.

(** A graph whose references are live reads the same in a larger store. *)
Lemma graph_extends h h' g :
  heap_extends h h' → graph_live h g →
  graph_live h' g ∧ node_ids h' g = node_ids h g ∧
  ∀ e, e ∈ edges g →
       edge_at h' e = edge_at h e ∧
       endpoint_id h' (source (edge_at h e)) = endpoint_id h (source (edge_at h e)) ∧
       endpoint_id h' (target (edge_at h e)) = endpoint_id h (target (edge_at h e)).
Proof.
  intros Hext [Hn He]. destruct (length_extends _ _ Hext) as [Hln Hle].
  assert (Hedge : ∀ e, e ∈ edges g →
       edge_at h' e = edge_at h e ∧
       endpoint_id h' (source (edge_at h e)) = endpoint_id h (source (edge_at h e)) ∧
       endpoint_id h' (target (edge_at h e)) = endpoint_id h (target (edge_at h e))).
  { intros e Hin. destruct (He e Hin) as (Hlt & Hs & Ht). split_and!.
    - by apply edge_at_extends.
    - destruct (source (edge_at h e)); simpl; [done|]. by rewrite (node_at_extends h h').
    - destruct (target (edge_at h e)); simpl; [done|]. by rewrite (node_at_extends h h'). }
  split_and!; try done.
  - split.
    + intros n Hin. specialize (Hn n Hin). lia.
    + intros e Hin. destruct (He e Hin) as (Hlt & Hs & Ht).
      destruct (Hedge e Hin) as (-> & _). split_and!.
      * lia.
      * destruct (source (edge_at h e)); [done | lia].
      * destruct (target (edge_at h e)); [done | lia].
  - unfold node_ids. apply list_fmap_ext. intros i n Hi; simpl.
    f_equal. apply node_at_extends; [done|]. apply Hn. by eapply list_elem_of_lookup_2.
Qed.

Lemma closed_extends h h' g :
  heap_extends h h' → graph_live h g → closed h g → closed h' g.
Proof.
  intros Hext Hlive Hclosed e Hin.
  destruct (graph_extends _ _ _ Hext Hlive) as (_ & Hids & Hedge).
  destruct (Hedge e Hin) as (-> & -> & ->). rewrite Hids. by apply Hclosed.
Qed.

(** X4.  Adding a node: one new object with the id [node-<now>], the default
    label and description, no position, velocity or pin, goes to the end of
    the node array and becomes the selection; the objects that were there
    are untouched, the edges are the same, and a graph without dangling
    edges stays one. *)
Theorem handleAddNode_appends_fresh_node now h st :
  graph_live h (graph st) → closed h (graph st) →
  heap_extends h (handleAddNode now h st).1 ∧
  nodes (graph (run st (handleAddNode now h st).2))
    = nodes (graph st) ++ [length (hnodes h)] ∧
  (length (hnodes h) ∉ nodes (graph st)) ∧
  node_at (handleAddNode now h st).1 (length (hnodes h))
    = mkNode ("node-" +:+ pretty now) "New Node" TConcept (Some "Manually added node")
             None None None None PinUndefined PinUndefined ∧
  edges (graph (run st (handleAddNode now h st).2)) = edges (graph st) ∧
  closed (handleAddNode now h st).1 (graph (run st (handleAddNode now h st).2)) ∧
  selectedNode (run st (handleAddNode now h st).2) = Some (length (hnodes h)).
Proof.
  intros Hlive Hclosed. unfold handleAddNode; simpl.
  set (new := mkNode _ _ _ _ _ _ _ _ _ _).
  pose proof (heap_extends_alloc_node h new) as Hext.
  split_and!; try done.
  - intros Hin. destruct Hlive as [Hn _]. specialize (Hn _ Hin). lia.
  - unfold node_at; simpl. by rewrite list_lookup_middle.
  - pose proof (closed_extends _ _ _ Hext Hlive Hclosed) as Hc.
    intros e Hin; simpl in Hin. destruct (Hc e Hin) as [Hs Ht].
    unfold node_ids in *; simpl in *. rewrite fmap_app.
    split; apply elem_of_app; by left.
Qed.

(** X5.  The "Connect to..." flow, start to "Add Link", with a node selected and
    [first] the first node of the graph with another id (a non-empty one):
    exactly one edge is added, a new object with plain id ends, from the
    selected node to [first] (never a loop), under the label typed; the nodes
    are the same and, the selected node being a node of the graph by its id,
    a graph without dangling edges stays one.  The sidebar is back to its
    closed state with the default label. *)
Theorem connect_adds_valid_edge now h st s sel first :
  graph_live h (graph st) → closed h (graph st) →
  selectedNode st = Some sel →
  id (node_at h sel) ∈ node_ids h (graph st) →
  head (filter (λ n, id (node_at h n) ≠ id (node_at h sel)) (nodes (graph st)))
    = Some first →
  id (node_at h first) ≠ "" →
  id (node_at h first) ≠ id (node_at h sel) ∧
  heap_extends h (connect now h st s).1.1 ∧
  nodes (graph (connect now h st s).1.2) = nodes (graph st) ∧
  edges (graph (connect now h st s).1.2) = edges (graph st) ++ [length (hedges h)] ∧
  (length (hedges h) ∉ edges (graph st)) ∧
  edge_at (connect now h st s).1.1 (length (hedges h))
    = mkEdge ("edge-" +:+ pretty now) (EpId (id (node_at h sel)))
             (EpId (id (node_at h first))) (Sidebar.edgeLabel s) ∧
  closed (connect now h st s).1.1 (graph (connect now h st s).1.2) ∧
  (connect now h st s).2
    = Sidebar.mkSidebar (Sidebar.prompt s) "related_to" (id (node_at h first)) false.
Proof.
  intros Hlive Hclosed Hsel Hselid Hfirst Hnonempty.
  assert (Hf : first ∈ nodes (graph st) ∧ id (node_at h first) ≠ id (node_at h sel)).
  { apply head_Some in Hfirst as [rest Hrest].
    assert (H1 : first ∈ filter (λ n, id (node_at h n) ≠ id (node_at h sel))
                                (nodes (graph st)))
      by (rewrite Hrest; apply list_elem_of_here).
    apply list_elem_of_filter in H1. tauto. }
  destruct Hf as [Hfin Hfne].
  unfold connect, Sidebar.handleConnectionStart, Sidebar.handleCreateEdge.
  rewrite Hsel; simpl.
  destruct (filter _ (nodes (graph st))) as [|n0 rest]; [done|].
  injection Hfirst as ->. simpl.
  destruct (String.eqb (id (node_at h first)) "") eqn:Heq;
    [by apply String.eqb_eq in Heq|]. simpl.
  set (new := mkEdge _ _ _ _).
  pose proof (heap_extends_alloc_edge h new) as Hext.
  split_and!; try done.
  - intros Hin. destruct Hlive as [_ He]. destruct (He _ Hin) as [Hlt _]. lia.
  - unfold edge_at; simpl. by rewrite list_lookup_middle.
  - pose proof (closed_extends _ _ _ Hext Hlive Hclosed) as Hc.
    assert (Hids : node_ids (alloc_edge h new).1 (graph st) = node_ids h (graph st))
      by done.
    intros e Hin; simpl in Hin. apply elem_of_app in Hin as [Hin|Hin].
    + destruct (Hc e Hin) as [Hs Ht]. done.
    + apply list_elem_of_singleton in Hin as ->.
      assert (Hnew : edge_at (mkHeap (hnodes h) (hedges h ++ [new])) (length (hedges h)) = new)
        by (unfold edge_at; simpl; by rewrite list_lookup_middle).
      rewrite Hnew; simpl. split; [exact Hselid|].
      apply elem_of_node_ids. by exists first.
Qed.

End Growth.

(** ** Saves *)

Section Saves.
Context `{JSNumber} `{!D3.Physics}.
Import GraphCanvas App AppEdit Integrity.

Lemma cleanNode_idem n : cleanNode (cleanNode n) = cleanNode n.
Proof. unfold cleanNode. by destruct (x n), (y n). Qed.

(** Reading a block of the store back, object by object. *)
Lemma read_block {A} (d : A) (pre mid post : list A) :
  (λ r, default d ((pre ++ mid ++ post) !! r)) <$> seq (length pre) (length mid) = mid.
Proof.
  apply list_eq. intros i. rewrite list_lookup_fmap.
  destruct (decide (i < length mid)) as [Hlt|Hge].
  - rewrite lookup_seq_lt by done; simpl.
    rewrite lookup_app_r by lia.
    replace (length pre + i - length pre) with i by lia.
    rewrite lookup_app_l by done.
    destruct (lookup_lt_is_Some_2 mid i Hlt) as [a Ha]. by rewrite Ha.
  - rewrite lookup_seq_ge by lia. rewrite lookup_ge_None_2; [done | lia].
Qed.

(** An edge with plain id ends is determined by its JSON value. *)
Lemma plain_edges_back h' h l : ∀ es,
  Forall (λ e, is_id_string (source e) = true ∧ is_id_string (target e) = true) l →
  Forall2 (λ e e', Json.stringify_edge h' e' = Json.stringify_edge h e) l es →
  es = l.
Proof.
  induction l as [|e l IH]; intros es Hplain Hall.
  - by apply Forall2_nil_inv_l in Hall.
  - apply Forall2_cons_inv_l in Hall as (e' & es' & Hj & Hall & ->).
    apply Forall_cons in Hplain as [[Hs Ht] Hplain].
    f_equal; [|by apply IH].
    unfold Json.stringify_edge in Hj. injection Hj as Hid Hsrc Htgt Hlab.
    destruct e as [i s t l0], e' as [i' s' t' l']; simpl in *.
    destruct s, t; try done. destruct s', t'; try done.
    simpl in Hsrc, Htgt. congruence.
Qed.

(** The data of a save with plain edges, placed in the store: new objects,
    read back they are the saved nodes and edges. *)
Lemma graph_of_data_plain h d :
  Forall (λ e, is_id_string (source e) = true ∧ is_id_string (target e) = true)
         (saved_edges d) →
  heap_extends h (graph_of_data h d).1 ∧
  nodes (graph_of_data h d).2 = seq (length (hnodes h)) (length (saved_nodes d)) ∧
  edges (graph_of_data h d).2 = seq (length (hedges h)) (length (saved_edges d)) ∧
  node_at (graph_of_data h d).1 <$> nodes (graph_of_data h d).2 = saved_nodes d ∧
  edge_at (graph_of_data h d).1 <$> edges (graph_of_data h d).2 = saved_edges d.
Proof.
  intros Hplain. unfold graph_of_data, Json.parse; simpl.
  rewrite parse_nodes_spec.
  set (h1 := mkHeap (hnodes h ++ saved_nodes d) (hedges h)).
  destruct (Json.parse_edges h1 _) as [h2 rs] eqn:Hedges.
  apply parse_edges_spec in Hedges as ([extra Hext] & -> & es & Hes & Hall).
  simpl in Hext, Hes. rewrite <- app_assoc in Hext. rewrite length_fmap. simpl.
  assert (Hsame : es = saved_edges d).
  { apply (plain_edges_back h2 h); [done|].
    apply Forall2_fmap_l in Hall. eapply Forall2_impl; [exact Hall|].
    by intros e e' (Hj & _ & _). }
  split_and!; try done.
  - split; intros r Hr.
    + by rewrite Hext, lookup_app_l.
    + by rewrite Hes, lookup_app_l.
  - unfold node_at. rewrite Hext. apply read_block.
  - unfold edge_at. rewrite Hes, <- Hsame.
    pose proof (read_block no_edge (hedges h) es []) as Hb.
    by rewrite app_nil_r in Hb.
Qed.

(** X6.  Saving and loading back: the save made by [handleSave] is the first of
    the list; loading it makes the graph of [App] a graph of new objects
    that, saved again, gives the same nodes and the same edges; its edges
    have plain id ends; both selections are cleared and the list of saves is
    closed. *)
Theorem save_then_load_round_trip name now_id now_ts h graphRef st shown :
  name ≠ "" →
  ∃ save,
    head (savedOntologies (handleSave (Some name) now_id now_ts h graphRef st)) = Some save ∧
    heap_extends h (handleLoad true save shown h).1.1 ∧
    cleanNodes (handleLoad true save shown h).1.1
               (graph (run (handleSave (Some name) now_id now_ts h graphRef st)
                           (handleLoad true save shown h).1.2))
      = saved_nodes (data save) ∧
    cleanEdges (handleLoad true save shown h).1.1
               (graph (run (handleSave (Some name) now_id now_ts h graphRef st)
                           (handleLoad true save shown h).1.2))
      = saved_edges (data save) ∧
    nodes (graph (run (handleSave (Some name) now_id now_ts h graphRef st)
                           (handleLoad true save shown h).1.2))
      = seq (length (hnodes h)) (length (nodes (currentGraph graphRef st))) ∧
    selectedNode (run (handleSave (Some name) now_id now_ts h graphRef st)
                      (handleLoad true save shown h).1.2) = None ∧
    selectedEdge (run (handleSave (Some name) now_id now_ts h graphRef st)
                      (handleLoad true save shown h).1.2) = None ∧
    (handleLoad true save shown h).2 = false.
Proof.
  intros Hname. unfold handleSave.
  destruct (String.eqb name "") eqn:Heq; [by apply String.eqb_eq in Heq|].
  eexists. split; [simpl; reflexivity|].
  set (d := mkSavedGraph _ _).
  assert (Hplain : Forall (λ e, is_id_string (source e) = true ∧
                                is_id_string (target e) = true) (saved_edges d)).
  { unfold d, cleanEdges; simpl. apply Forall_fmap, Forall_forall. by intros e _. }
  destruct (graph_of_data_plain h d Hplain) as (Hext & Hn & He & Hnodes & Hedges).
  unfold handleLoad; simpl.
  destruct (graph_of_data h d) as [h' g'] eqn:Hg; simpl in *.
  split_and!; try done.
  - unfold cleanNodes. rewrite list_fmap_compose, Hnodes.
    unfold d, cleanNodes; simpl. rewrite <- list_fmap_compose.
    apply list_fmap_ext. intros i n _; simpl. apply cleanNode_idem.
  - unfold cleanEdges. rewrite list_fmap_compose, Hedges.
    unfold d, cleanEdges; simpl. rewrite <- list_fmap_compose.
    apply list_fmap_ext. by intros i e _.
  - rewrite Hn. unfold d, cleanNodes; simpl. by rewrite length_fmap.
Qed.

(** X7.  A click on the delete button of a save: the saves with its id are gone
    from the list, the others stay in their order, storage holds the new
    list; the click does not reach the row, so nothing is loaded: store,
    graph, selection and the open list are as before. *)
Theorem delete_save_click_never_loads save confirmed shown h st :
  (save_click (OnDeleteButton save) confirmed shown h st).1.1 = h ∧
  (save_click (OnDeleteButton save) confirmed shown h st).2 = shown ∧
  graph (save_click (OnDeleteButton save) confirmed shown h st).1.2 = graph st ∧
  selectedNode (save_click (OnDeleteButton save) confirmed shown h st).1.2 = selectedNode st ∧
  selectedEdge (save_click (OnDeleteButton save) confirmed shown h st).1.2 = selectedEdge st ∧
  savedOntologies (save_click (OnDeleteButton save) confirmed shown h st).1.2
    `sublist_of` savedOntologies st ∧
  Forall (λ s, save_id s ≠ save_id save)
         (savedOntologies (save_click (OnDeleteButton save) confirmed shown h st).1.2) ∧
  length (filter (λ s, save_id s ≠ save_id save) (savedOntologies st))
    = length (savedOntologies (save_click (OnDeleteButton save) confirmed shown h st).1.2) ∧
  localStorage (save_click (OnDeleteButton save) confirmed shown h st).1.2
    = Some (savedOntologies (save_click (OnDeleteButton save) confirmed shown h st).1.2).
Proof.
  simpl. split_and!; try done.
  - apply sublist_filter.
  - apply Forall_forall. intros s Hs. by apply list_elem_of_filter in Hs as [? _].
Qed.

End Saves.

(** ** The generation service *)

Section Generation.
Context `{JSNumber}.
Import GeminiService Text.
Import Stdlib.Strings.Ascii.

Lemma parse_extends h j : heap_extends h (Json.parse h j).1.
Proof.
  unfold Json.parse. rewrite parse_nodes_spec.
  destruct (Json.parse_edges _ (Json.jedges j)) as [h2 rs] eqn:Hedges.
  apply parse_edges_spec in Hedges as ([extra Hext] & _ & es & Hes & _).
  simpl in *. split; intros r Hr.
  - rewrite Hext, <- app_assoc. by rewrite lookup_app_l.
  - by rewrite Hes, lookup_app_l.
Qed.

(** X9.  With a key, the client is constructed and one request issued; a
    rejection, whatever its cause (the request, an empty answer, an answer
    that does not parse, or one that parses to something the post-processing
    cannot read), is logged once, is the error logged, and leaves the store
    alone; a resolution logs nothing and only adds objects. *)
Theorem generateOntology_logs_what_it_rejects o apiKey prompt h :
  apiKey ≠ "" →
  match generateOntology o apiKey prompt h with
  | (trace, h', inl error) =>
      h' = h ∧
      trace = [NewGoogleGenAI apiKey; GenerateContent "gemini-2.5-flash" prompt;
               ConsoleError error]
  | (trace, h', inr g) =>
      heap_extends h h' ∧
      trace = [NewGoogleGenAI apiKey; GenerateContent "gemini-2.5-flash" prompt]
  end.
Proof.
  intros Hkey. unfold generateOntology.
  destruct (String.eqb apiKey "") eqn:Heq; [by apply String.eqb_eq in Heq|].
  destruct (generateContent o apiKey "gemini-2.5-flash" prompt) as [err|[text|]];
    [done| |done].
  destruct (String.eqb text ""); [done|].
  destruct (JSON_parse o text) as [err|data]; [done|].
  destruct (edgesWithIds o data) as [err|es]; [done|].
  pose proof (parse_extends h (Json.mkJGraph (nodes_or_empty data) es)) as Hext.
  by destruct (Json.parse h _) as [h' g].
Qed.

Lemma pretty_N_char_dashless x : Ascii.eqb (pretty_N_char x) "-"%char = false.
Proof.
  unfold pretty_N_char. destruct x as [|p]; [done|].
  do 4 (destruct p as [p|p|]; try done).
Qed.

Lemma pretty_N_go_dashless x : ∀ s, dashless s = true → dashless (pretty_N_go x s) = true.
Proof.
  induction (N.lt_wf_0 x) as [x _ IH]. intros s Hs.
  destruct (decide (x = 0)%N) as [->|Hx]; [by rewrite pretty_N_go_0|].
  rewrite pretty_N_go_step by lia.
  apply IH; [apply N.div_lt; lia|].
  simpl. by rewrite pretty_N_char_dashless.
Qed.

Lemma pretty_nat_dashless (n : nat) : dashless (pretty n) = true.
Proof.
  unfold pretty, pretty_nat, pretty, pretty_N.
  case_decide; [done|]. by apply pretty_N_go_dashless.
Qed.

(** Two strings that agree after a dash-free prefix and a dash each have the
    same prefix. *)
Lemma dashless_prefix s1 : ∀ s2 r1 r2,
  dashless s1 = true → dashless s2 = true →
  s1 +:+ "-" +:+ r1 = s2 +:+ "-" +:+ r2 → s1 = s2.
Proof.
  induction s1 as [|c s1 IH]; intros [|c' s2] r1 r2 H1 H2 Heq; simpl in *.
  - done.
  - injection Heq as <- _. by rewrite Ascii.eqb_refl in H2.
  - injection Heq as -> _. by rewrite Ascii.eqb_refl in H1.
  - injection Heq as -> Heq.
    apply andb_prop in H1 as [_ H1]. apply andb_prop in H2 as [_ H2].
    f_equal. by eapply IH.
Qed.

Lemma edge_id_inj o : Inj (=) (=) (edge_id o).
Proof.
  intros i j Heq. unfold edge_id in Heq.
  apply (inj (String.app "edge-")) in Heq.
  apply dashless_prefix in Heq; [|apply pretty_nat_dashless..].
  by apply (inj pretty) in Heq.
Qed.

(** X10.  Once the answer has parsed.  When it is [null], or its [edges] is
    something other than an array or a falsy value, the function rejects
    with the engine's [TypeError], logged once, and creates nothing.
    Otherwise the answer becomes a graph of new objects: its nodes are the
    parsed nodes (none when [nodes] is missing), there is one edge per
    parsed edge (none when [edges] is missing), in order, with the parsed
    label and ends, and the [index]-th edge gets the id
    [edge-<index>-<clock>], whatever id the answer gave it; these ids are
    pairwise different even when the clock does not advance. *)
Theorem generateOntology_numbers_the_edges o apiKey prompt h text data :
  apiKey ≠ "" →
  generateContent o apiKey "gemini-2.5-flash" prompt = inr (Some text) →
  text ≠ "" →
  JSON_parse o text = inr data →
  let called := [NewGoogleGenAI apiKey; GenerateContent "gemini-2.5-flash" prompt] in
  let resolves (ns : list OntologyNode) (js : list Json.JEdge) :=
    ∃ h' g,
      generateOntology o apiKey prompt h = (called, h', inr g) ∧
      nodes g = seq (length (hnodes h)) (length ns) ∧
      node_at h' <$> nodes g = ns ∧
      edges g = seq (length (hedges h)) (length js) ∧
      eid ∘ edge_at h' <$> edges g = edge_id o <$> seq 0 (length js) ∧
      NoDup (eid ∘ edge_at h' <$> edges g) ∧
      Forall2 (λ j e, elabel (edge_at h' e) = Json.jlabel j ∧
                      Json.stringify_endpoint h' (source (edge_at h' e)) = Json.jsource j ∧
                      Json.stringify_endpoint h' (target (edge_at h' e)) = Json.jtarget j)
              js (edges g) in
  let rejects (error : Error) :=
    generateOntology o apiKey prompt h = (called ++ [ConsoleError error], h, inl error) in
  match data with
  | DataNull => rejects (TypeError o (PropertyOfNull "edges"))
  | DataValue _ EdgesOther => rejects (TypeError o (NotAFunction "map"))
  | DataValue ns EdgesFalsy => resolves (default [] ns) []
  | DataValue ns (EdgesArray js) => resolves (default [] ns) js
  end.
Proof.
  intros Hkey Hanswer Htext Hparse called resolves rejects.
  assert (Hrun : generateOntology o apiKey prompt h =
                 match edgesWithIds o data with
                 | inl error => (called ++ [ConsoleError error], h, inl error)
                 | inr es =>
                     let '(h', g) := Json.parse h (Json.mkJGraph (nodes_or_empty data) es) in
                     (called, h', inr g)
                 end).
  { unfold generateOntology.
    destruct (String.eqb apiKey "") eqn:Heq; [by apply String.eqb_eq in Heq|].
    rewrite Hanswer.
    destruct (String.eqb text "") eqn:Heqt; [by apply String.eqb_eq in Heqt|].
    by rewrite Hparse. }
  assert (Hresolves : ∀ ns js,
            nodes_or_empty data = ns →
            edgesWithIds o data = inr (imap (λ index edge, set_jid (edge_id o index) edge) js) →
            resolves ns js).
  { intros ns js Hns Hes. unfold resolves. rewrite Hrun, Hes, Hns.
    unfold Json.parse; simpl. rewrite parse_nodes_spec.
    set (h1 := mkHeap (hnodes h ++ ns) (hedges h)).
    destruct (Json.parse_edges h1 _) as [h2 rs] eqn:Hedges.
    apply parse_edges_spec in Hedges as ([extra Hext] & -> & es & Hes' & Hall).
    simpl in Hext, Hes'. rewrite <- app_assoc in Hext.
    rewrite length_imap in *.
    exists h2, (mkGraph (seq (length (hnodes h)) (length ns))
                        (seq (length (hedges h)) (length js))).
    simpl.
    assert (Hread : edge_at h2 <$> seq (length (hedges h)) (length js) = es).
    { unfold edge_at. rewrite Hes'.
      pose proof (read_block no_edge (hedges h) es []) as Hb.
      rewrite app_nil_r in Hb.
      by rewrite <- (Forall2_length _ _ _ Hall), length_imap in Hb. }
    assert (Hids : eid ∘ edge_at h2 <$> seq (length (hedges h)) (length js)
                   = edge_id o <$> seq 0 (length js)).
    { rewrite list_fmap_compose, Hread.
      apply list_eq. intros i. rewrite !list_lookup_fmap.
      destruct (es !! i) as [e|] eqn:He.
      - destruct (Forall2_lookup_r _ _ _ _ _ Hall He) as (j & Hj & Hrel & _).
        apply list_lookup_imap_Some in Hj as (j0 & Hj0 & ->).
        rewrite lookup_seq_lt by (by eapply lookup_lt_Some). simpl.
        unfold Json.stringify_edge in Hrel. by injection Hrel as -> _ _ _.
      - apply lookup_ge_None in He.
        rewrite <- (Forall2_length _ _ _ Hall), length_imap in He.
        by rewrite lookup_seq_ge. }
    split_and!; try done.
    - unfold node_at. rewrite Hext. apply read_block.
    - rewrite Hids. apply NoDup_fmap_2; [apply edge_id_inj | apply NoDup_seq].
    - apply Forall2_same_length_lookup_2; [by rewrite length_seq|].
      intros i j e Hj He.
      assert (Hei : es !! i = Some (edge_at h2 e))
        by (by rewrite <- Hread, list_lookup_fmap, He).
      destruct (Forall2_lookup_r _ _ _ _ _ Hall Hei) as (j' & Hj' & Hrel & _).
      apply list_lookup_imap_Some in Hj' as (j0 & Hj0 & ->).
      assert (j0 = j) as -> by congruence.
      unfold Json.stringify_edge in Hrel. by injection Hrel as _ -> -> ->. }
  destruct data as [|ns [|js|]]; simpl in *.
  - unfold rejects. by rewrite Hrun.
  - by apply Hresolves.
  - by apply Hresolves.
  - unfold rejects. by rewrite Hrun.
Qed.

End Generation.

(** ** The canvas between snapshot and export *)

Section CanvasRoundTrip.
Context `{JSNumber} `{!D3.Physics}.
Import D3 GraphCanvas App Contract.

Lemma NoDup_fmap_elem {A B} (f : A → B) (l : list A) a b :
  NoDup (f <$> l) → a ∈ l → b ∈ l → f a = f b → a = b.
Proof.
  induction l as [|c l IH]; intros Hnd Ha Hb Hf; [by apply elem_of_nil in Ha|].
  simpl in Hnd. apply NoDup_cons in Hnd as [Hc Hnd].
  apply elem_of_cons in Ha as [->|Ha]; apply elem_of_cons in Hb as [->|Hb].
  - done.
  - exfalso. apply Hc. rewrite Hf. by apply list_elem_of_fmap_2.
  - exfalso. apply Hc. rewrite <- Hf. by apply list_elem_of_fmap_2.
  - by apply IH.
Qed.

(** With pairwise different ids, every node of the array is the one the id
    table gives for its id. *)
Lemma map_by_id_unique h ns r :
  NoDup (id ∘ node_at h <$> ns) → r ∈ ns →
  map_by_id h ns !! id (node_at h r) = Some r.
Proof.
  intros Hnd Hr.
  destruct (map_by_id h ns !! id (node_at h r)) as [r0|] eqn:Hl.
  - apply map_by_id_Some in Hl as [Hr0 Hid].
    f_equal. by apply (NoDup_fmap_elem (id ∘ node_at h) ns).
  - exfalso. eapply map_by_id_None; [exact Hl | exact Hr | done].
Qed.

(** X11.  Reconciling against a working copy whose ids are pairwise different: the
    copy of a snapshot node sits at the same place in the node array, has
    the identity of the snapshot node and the position of the old node that
    carries its id, and each velocity component that old node has. *)
Theorem reconcile_takes_position_of_namesake h sim g i n old :
  (∀ r, r ∈ sim_nodes sim → r < length (hnodes h)) →
  NoDup (id ∘ node_at h <$> sim_nodes sim) →
  nodes g !! i = Some n →
  old ∈ sim_nodes sim →
  id (node_at h old) = id (node_at h n) →
  ∃ n',
    nodes (reconcile h (Some sim) g).2 !! i = Some n' ∧
    length (hnodes h) ≤ n' ∧
    id (node_at (reconcile h (Some sim) g).1 n') = id (node_at h n) ∧
    label (node_at (reconcile h (Some sim) g).1 n') = label (node_at h n) ∧
    x (node_at (reconcile h (Some sim) g).1 n') = x (node_at h old) ∧
    y (node_at (reconcile h (Some sim) g).1 n') = y (node_at h old) ∧
    vx (node_at (reconcile h (Some sim) g).1 n')
      = (if vx (node_at h old) is Some _ then vx (node_at h old) else vx (node_at h n)) ∧
    vy (node_at (reconcile h (Some sim) g).1 n')
      = (if vy (node_at h old) is Some _ then vy (node_at h old) else vy (node_at h n)).
Proof.
  intros Hlive Hnd Hi Hold Hid.
  destruct (reconcile h (Some sim) g) as [h' g'] eqn:Hrec.
  assert (Hlive' : ∀ sim0 r, Some sim = Some sim0 → r ∈ sim_nodes sim0 →
                             r < length (hnodes h))
    by (intros sim0 r [= <-]; apply Hlive).
  destruct (reconcile_spec _ _ _ _ _ Hlive' Hrec) as (_ & Hgn & _ & Hnodes & _).
  destruct (Forall2_lookup_l _ _ _ _ _ Hnodes Hi) as (n' & Hn' & Hrel).
  exists n'. simpl. split; [done|].
  assert (Hfresh : length (hnodes h) ≤ n').
  { rewrite Hgn in Hn'. apply lookup_seq in Hn' as [-> _]. lia. }
  unfold old_node in Hrel.
  rewrite <- Hid, (map_by_id_unique h (sim_nodes sim) old) in Hrel by done.
  simpl in Hrel. destruct Hrel as (Hi1 & Hl1 & _ & _ & _ & _ & Hx & Hy & Hvx & Hvy).
  split_and!; try done; congruence.
Qed.

Lemma identity_initialize_node i n :
  label (initialize_node i n) = label n ∧ type (initialize_node i n) = type n ∧
  description (initialize_node i n) = description n.
Proof.
  unfold initialize_node.
  repeat (match goal with |- context [match ?c with _ => _ end] => destruct c end;
          simpl); done.
Qed.

Lemma initialize_nodes_identity rs : ∀ h i r,
  label (node_at (initialize_nodes h i rs) r) = label (node_at h r) ∧
  type (node_at (initialize_nodes h i rs) r) = type (node_at h r) ∧
  description (node_at (initialize_nodes h i rs) r) = description (node_at h r).
Proof.
  induction rs as [|r0 rs IH]; intros h i r; simpl; [done|].
  destruct (IH (put_node h r0 (initialize_node i (node_at h r0))) (S i) r)
    as (-> & -> & ->).
  rewrite node_at_put_node.
  destruct (decide (r0 = r ∧ r0 < length (hnodes h))) as [[<- _]|_]; [|done].
  apply identity_initialize_node.
Qed.

Lemma resolve_links_labels m ls : ∀ h e,
  eid (edge_at (resolve_links h m ls).1 e) = eid (edge_at h e) ∧
  elabel (edge_at (resolve_links h m ls).1 e) = elabel (edge_at h e).
Proof.
  induction ls as [|l ls IH]; intros h e; simpl; [done|].
  destruct (resolve_endpoint m (source (edge_at h l))) as [err|p]; [done|].
  rewrite target_put_source.
  destruct (resolve_endpoint m (target (edge_at h l))) as [err|q]; simpl.
  - rewrite edge_at_put_edge.
    destruct (decide (l = e ∧ l < length (hedges h))) as [[<- _]|_]; done.
  - destruct (IH (put_edge (put_edge h l (set_source p (edge_at h l))) l
                   (set_target q (edge_at (put_edge h l (set_source p (edge_at h l))) l))) e)
      as [-> ->].
    rewrite edge_at_resolved.
    destruct (decide (l = e ∧ l < length (hedges h))) as [[<- _]|_]; done.
Qed.

Lemma stringify_endpoint_id h h' p p' :
  Json.stringify_endpoint h' p' = Json.stringify_endpoint h p →
  endpoint_id h' p' = endpoint_id h p.
Proof. destruct p, p'; simpl; intros Heq; congruence. Qed.

(** X12.  A snapshot handed to the canvas and exported for saving once the
    simulation is set up: the cleaned export has, node for node and edge for
    edge in the order of the snapshot, the ids, labels, types and
    descriptions of the snapshot's nodes and the ids, labels and end ids of
    its edges, the ends as plain id strings. *)
Theorem update_then_clean_export_keeps_graph h st g h' st' :
  attached st = true →
  (∀ sim r, simulationRef st = Some sim → r ∈ sim_nodes sim → r < length (hnodes h)) →
  update h st g = Completed h' st' →
  Forall2 (λ n c, id c = id (node_at h n) ∧ label c = label (node_at h n) ∧
                  type c = type (node_at h n) ∧
                  description c = description (node_at h n))
          (nodes g) (cleanNodes h' (getGraph st')) ∧
  Forall2 (λ e c, eid c = eid (edge_at h e) ∧ elabel c = elabel (edge_at h e) ∧
                  source c = EpId (endpoint_id h (source (edge_at h e))) ∧
                  target c = EpId (endpoint_id h (target (edge_at h e))))
          (edges g) (cleanEdges h' (getGraph st')).
Proof.
  intros Hatt Hlive. unfold update, reconcile_effect; simpl.
  destruct (reconcile h (simulationRef st) g) as [h1 g1] eqn:Hrec.
  destruct (reconcile_spec _ _ _ _ _ Hlive Hrec) as (_ & _ & _ & Hnodes & Hedges).
  unfold render_effect; simpl. rewrite Hatt; simpl. unfold force_link; simpl.
  set (h2 := initialize_nodes h1 0 (nodes g1)).
  destruct (initialize_nodes_spec (nodes g1) h1 0) as (He2 & _ & Hid2). fold h2 in He2, Hid2.
  pose proof (initialize_nodes_identity (nodes g1) h1 0) as Hident. fold h2 in Hident.
  destruct (resolve_links h2 (map_by_id h2 (nodes g1)) (edges g1)) as [h3 [err|]] eqn:Hres;
    [done|].
  intros [= <- <-]. unfold getGraph, cleanNodes, cleanEdges; simpl.
  assert (Hn3 : ∀ r, node_at h3 r = node_at h2 r).
  { intros r. unfold node_at.
    by rewrite <- (resolve_links_hnodes (map_by_id h2 (nodes g1)) (edges g1) h2), Hres. }
  assert (Hm : ∀ s r, map_by_id h2 (nodes g1) !! s = Some r → id (node_at h2 r) = s)
    by (intros s r Hs; by apply map_by_id_Some in Hs as [_ ?]).
  pose proof (resolve_links_ids _ _ _ _ Hm Hres) as Hids.
  pose proof (resolve_links_labels (map_by_id h2 (nodes g1)) (edges g1) h2) as Hlab.
  rewrite Hres in Hlab; simpl in Hlab.
  assert (Hedge2 : ∀ e, edge_at h2 e = edge_at h1 e)
    by (intros e; unfold edge_at; by rewrite He2).
  split.
  - apply Forall2_fmap_r. eapply Forall2_impl; [exact Hnodes|]. simpl.
    intros n n' (Hi & Hl & Ht & Hd & _).
    destruct (cleanNode_spec (node_at h3 n')) as (-> & -> & -> & -> & _).
    rewrite Hn3, Hid2. destruct (Hident n') as (-> & -> & ->). done.
  - apply Forall2_fmap_r. eapply Forall2_impl; [exact Hedges|]. simpl.
    intros e e' Hj. unfold cleanEdge; simpl.
    destruct (Hlab e') as [-> ->]. destruct (Hids e') as [-> ->].
    rewrite !Hedge2.
    rewrite !(endpoint_id_ids h1 h2) by done.
    unfold Json.stringify_edge in Hj. injection Hj as Hi Hs Ht Hl.
    apply stringify_endpoint_id in Hs, Ht. by rewrite Hi, Hl, Hs, Ht.
Qed.

End CanvasRoundTrip.

Section CanvasAccepts.
Context `{JSNumber} `{!D3.Physics}.
Import D3 GraphCanvas App Contract Integrity.

(** When every plain end of every link is in the id table, the link force is
    initialised without an error. *)
Lemma resolve_links_succeeds m ls : ∀ h,
  (∀ e s, e ∈ ls →
          source (edge_at h e) = EpId s ∨ target (edge_at h e) = EpId s →
          is_Some (m !! s)) →
  (resolve_links h m ls).2 = None.
Proof.
  induction ls as [|l ls IH]; intros h Hok; simpl; [done|].
  destruct (resolve_endpoint m (source (edge_at h l))) as [err|p] eqn:Hs.
  { apply resolve_endpoint_inl in Hs as (s & Hsrc & Hnone & _).
    destruct (Hok l s) as [r Hr]; [apply list_elem_of_here | by left |]. congruence. }
  destruct (resolve_endpoint m (target _)) as [err|q] eqn:Ht.
  { rewrite target_put_source in Ht.
    apply resolve_endpoint_inl in Ht as (s & Htgt & Hnone & _).
    destruct (Hok l s) as [r Hr]; [apply list_elem_of_here | by right |]. congruence. }
  rewrite target_put_source in Ht.
  apply resolve_endpoint_inr in Hs as (r & -> & _).
  apply resolve_endpoint_inr in Ht as (r' & -> & _).
  apply IH. intros e s He Hends. rewrite edge_at_resolved in Hends.
  destruct (decide (l = e ∧ l < length (hedges h))) as [_|_].
  - simpl in Hends. by destruct Hends.
  - apply (Hok e s); [by apply list_elem_of_further | done].
Qed.

(** X13.  A snapshot without dangling edges is accepted by the mounted
    canvas: reconciliation and the set-up of the simulation go through, the
    new simulation runs over the nodes of the working copy and is the one
    referenced, and the scene is drawn for the working copy. *)
Theorem update_accepts_closed_graph h st g :
  attached st = true →
  (∀ sim r, simulationRef st = Some sim → r ∈ sim_nodes sim → r < length (hnodes h)) →
  closed h g →
  ∃ h' st' sim,
    update h st g = Completed h' st' ∧
    GraphCanvas.graph st' = g ∧
    length (nodes (activeGraph st')) = length (nodes g) ∧
    length (edges (activeGraph st')) = length (edges g) ∧
    simulationRef st' = Some sim ∧
    sim_nodes sim = nodes (activeGraph st') ∧
    sim_links sim = edges (activeGraph st') ∧
    running sim = true ∧
    scene st' = drawn_scene (activeGraph st').
Proof.
  intros Hatt Hlive Hclosed. unfold update, reconcile_effect; simpl.
  destruct (reconcile h (simulationRef st) g) as [h1 g1] eqn:Hrec.
  destruct (reconcile_spec _ _ _ _ _ Hlive Hrec) as (_ & _ & _ & Hnodes & Hedges).
  unfold render_effect; simpl. rewrite Hatt; simpl. unfold force_link; simpl.
  set (h2 := initialize_nodes h1 0 (nodes g1)).
  destruct (initialize_nodes_spec (nodes g1) h1 0) as (He2 & _ & Hid2). fold h2 in He2, Hid2.
  assert (Hok : (resolve_links h2 (map_by_id h2 (nodes g1)) (edges g1)).2 = None).
  { apply resolve_links_succeeds. intros e' s He' Hends.
    assert (Hedge2 : edge_at h2 e' = edge_at h1 e') by (unfold edge_at; by rewrite He2).
    rewrite Hedge2 in Hends.
    apply list_elem_of_lookup in He' as [i Hi].
    destruct (Forall2_lookup_r _ _ _ _ _ Hedges Hi) as (e & He & Hj).
    assert (Hin : e ∈ edges g) by (by eapply list_elem_of_lookup_2).
    destruct (Hclosed e Hin) as [Hsrc Htgt].
    unfold Json.stringify_edge in Hj. injection Hj as _ Hs Ht _.
    apply stringify_endpoint_id in Hs, Ht.
    assert (Hs_in : s ∈ node_ids h g).
    { destruct Hends as [Hd|Hd]; rewrite Hd in *; simpl in *; congruence. }
    apply elem_of_node_ids in Hs_in as (n & Hn & Hidn).
    apply list_elem_of_lookup in Hn as [k Hk].
    destruct (Forall2_lookup_l _ _ _ _ _ Hnodes Hk) as (n' & Hn' & Hrel).
    destruct Hrel as (Hidn' & _).
    destruct (map_by_id h2 (nodes g1) !! s) as [r|] eqn:Hl; [by eexists|].
    exfalso. eapply map_by_id_None; [exact Hl | by eapply list_elem_of_lookup_2 |].
    rewrite Hid2. congruence. }
  destruct (resolve_links h2 (map_by_id h2 (nodes g1)) (edges g1)) as [h3 o] eqn:Hres.
  simpl in Hok. subst o.
  eexists _, _, _. split; [reflexivity|]. simpl.
  split_and!; try done.
  - by rewrite <- (Forall2_length _ _ _ Hnodes).
  - by rewrite <- (Forall2_length _ _ _ Hedges).
Qed.

End CanvasAccepts.

(** ** The properties above at the scenario graph *)

Section MoreWitnesses.
Import D3 GraphCanvas App AppEdit Integrity Examples MoreExamples.

Lemma closed_shown : closed shown_ab.1 (graph app_shown).
Proof.
  intros e He. simpl in He. apply elem_of_cons in He as [->|He];
    [|by apply elem_of_nil in He].
  vm_compute. split; [apply list_elem_of_here | apply list_elem_of_further, list_elem_of_here].
Qed.

Lemma live_shown : graph_live shown_ab.1 (graph app_shown).
Proof.
  split.
  - intros n Hn. simpl in Hn. vm_compute.
    repeat (apply elem_of_cons in Hn as [->|Hn]); [lia | lia |].
    by apply elem_of_nil in Hn.
  - intros e He. simpl in He. apply elem_of_cons in He as [->|He];
      [|by apply elem_of_nil in He].
    vm_compute. split_and!; (lia || done).
Qed.


Lemma handleDeleteEdge_keeps_closed_witness :
  nodes (graph (run app_shown (handleDeleteEdge "e1" shown_ab.1 app_shown)))
    = nodes (graph app_shown) ∧
  (∀ e, e ∈ edges (graph (run app_shown (handleDeleteEdge "e1" shown_ab.1 app_shown))) ↔
        e ∈ edges (graph app_shown) ∧ eid (edge_at shown_ab.1 e) ≠ "e1") ∧
  closed shown_ab.1 (graph (run app_shown (handleDeleteEdge "e1" shown_ab.1 app_shown))) ∧
  selectedEdge (run app_shown (handleDeleteEdge "e1" shown_ab.1 app_shown)) = None ∧
  selectedNode (run app_shown (handleDeleteEdge "e1" shown_ab.1 app_shown))
    = selectedNode app_shown.
Proof. apply (handleDeleteEdge_keeps_closed "e1" shown_ab.1 app_shown), closed_shown. Defined.

Lemma closed_edited : closed heap_edited (graph app_shown).
Proof.
  intros e He. simpl in He. apply elem_of_cons in He as [->|He];
    [|by apply elem_of_nil in He].
  vm_compute. split; [apply list_elem_of_here | apply list_elem_of_further, list_elem_of_here].
Qed.

Lemma handleUpdateNode_keeps_ids_witness :
  node_ids heap_edited (graph (run app_shown (handleUpdateNode 4 heap_edited app_shown)))
    = node_ids heap_edited (graph app_shown) ∧
  edges (graph (run app_shown (handleUpdateNode 4 heap_edited app_shown)))
    = edges (graph app_shown) ∧
  Forall2 (λ n n', n' = (if decide (id (node_at heap_edited n) = id (node_at heap_edited 4))
                         then 4 else n))
          (nodes (graph app_shown))
          (nodes (graph (run app_shown (handleUpdateNode 4 heap_edited app_shown)))) ∧
  closed heap_edited (graph (run app_shown (handleUpdateNode 4 heap_edited app_shown))) ∧
  selectedNode (run app_shown (handleUpdateNode 4 heap_edited app_shown)) = Some 4.
Proof. apply (handleUpdateNode_keeps_ids 4 heap_edited app_shown), closed_edited. Defined.

Lemma handleAddNode_appends_fresh_node_witness :
  heap_extends shown_ab.1 (handleAddNode 1000 shown_ab.1 app_shown).1 ∧
  nodes (graph (run app_shown (handleAddNode 1000 shown_ab.1 app_shown).2))
    = nodes (graph app_shown) ++ [length (hnodes shown_ab.1)] ∧
  (length (hnodes shown_ab.1) ∉ nodes (graph app_shown)) ∧
  node_at (handleAddNode 1000 shown_ab.1 app_shown).1 (length (hnodes shown_ab.1))
    = mkNode ("node-" +:+ pretty 1000) "New Node" TConcept (Some "Manually added node")
             None None None None PinUndefined PinUndefined ∧
  edges (graph (run app_shown (handleAddNode 1000 shown_ab.1 app_shown).2))
    = edges (graph app_shown) ∧
  closed (handleAddNode 1000 shown_ab.1 app_shown).1
         (graph (run app_shown (handleAddNode 1000 shown_ab.1 app_shown).2)) ∧
  selectedNode (run app_shown (handleAddNode 1000 shown_ab.1 app_shown).2)
    = Some (length (hnodes shown_ab.1)).
Proof.
  apply (handleAddNode_appends_fresh_node 1000 shown_ab.1 app_shown).
  - apply live_shown.
  - apply closed_shown.
Defined.

Lemma connect_adds_valid_edge_witness :
  id (node_at shown_ab.1 1) ≠ id (node_at shown_ab.1 2) ∧
  heap_extends shown_ab.1 (connect 1000 shown_ab.1 app_shown Sidebar.initial).1.1 ∧
  nodes (graph (connect 1000 shown_ab.1 app_shown Sidebar.initial).1.2)
    = nodes (graph app_shown) ∧
  edges (graph (connect 1000 shown_ab.1 app_shown Sidebar.initial).1.2)
    = edges (graph app_shown) ++ [length (hedges shown_ab.1)] ∧
  (length (hedges shown_ab.1) ∉ edges (graph app_shown)) ∧
  edge_at (connect 1000 shown_ab.1 app_shown Sidebar.initial).1.1 (length (hedges shown_ab.1))
    = mkEdge ("edge-" +:+ pretty 1000) (EpId (id (node_at shown_ab.1 2)))
             (EpId (id (node_at shown_ab.1 1))) (Sidebar.edgeLabel Sidebar.initial) ∧
  closed (connect 1000 shown_ab.1 app_shown Sidebar.initial).1.1
         (graph (connect 1000 shown_ab.1 app_shown Sidebar.initial).1.2) ∧
  (connect 1000 shown_ab.1 app_shown Sidebar.initial).2
    = Sidebar.mkSidebar (Sidebar.prompt Sidebar.initial) "related_to"
                        (id (node_at shown_ab.1 1)) false.
Proof.
  apply (connect_adds_valid_edge 1000 shown_ab.1 app_shown Sidebar.initial 2 1).
  - apply live_shown.
  - apply closed_shown.
  - reflexivity.
  - vm_compute. apply list_elem_of_here.
  - vm_compute. reflexivity.
  - vm_compute. discriminate.
Defined.

Lemma save_then_load_round_trip_witness :
  ∃ save,
    head (savedOntologies (handleSave (Some "demo") 7 8 shown_ab.1 (Some shown_ab.2) app_shown))
      = Some save ∧
    heap_extends shown_ab.1 (handleLoad true save true shown_ab.1).1.1 ∧
    cleanNodes (handleLoad true save true shown_ab.1).1.1
               (graph (run (handleSave (Some "demo") 7 8 shown_ab.1 (Some shown_ab.2) app_shown)
                           (handleLoad true save true shown_ab.1).1.2))
      = saved_nodes (data save) ∧
    cleanEdges (handleLoad true save true shown_ab.1).1.1
               (graph (run (handleSave (Some "demo") 7 8 shown_ab.1 (Some shown_ab.2) app_shown)
                           (handleLoad true save true shown_ab.1).1.2))
      = saved_edges (data save) ∧
    nodes (graph (run (handleSave (Some "demo") 7 8 shown_ab.1 (Some shown_ab.2) app_shown)
                      (handleLoad true save true shown_ab.1).1.2))
      = seq (length (hnodes shown_ab.1))
            (length (nodes (currentGraph (Some shown_ab.2) app_shown))) ∧
    selectedNode (run (handleSave (Some "demo") 7 8 shown_ab.1 (Some shown_ab.2) app_shown)
                      (handleLoad true save true shown_ab.1).1.2) = None ∧
    selectedEdge (run (handleSave (Some "demo") 7 8 shown_ab.1 (Some shown_ab.2) app_shown)
                      (handleLoad true save true shown_ab.1).1.2) = None ∧
    (handleLoad true save true shown_ab.1).2 = false.
Proof.
  apply (save_then_load_round_trip "demo" 7 8 shown_ab.1 (Some shown_ab.2) app_shown true).
  discriminate.
Defined.

Lemma generateOntology_logs_what_it_rejects_witness :
  match GeminiService.generateOntology outside0 "key" "cats" empty_heap with
  | (trace, h', inl error) =>
      h' = empty_heap ∧
      trace = [GeminiService.NewGoogleGenAI "key";
               GeminiService.GenerateContent "gemini-2.5-flash" "cats";
               GeminiService.ConsoleError error]
  | (trace, h', inr g) =>
      heap_extends empty_heap h' ∧
      trace = [GeminiService.NewGoogleGenAI "key";
               GeminiService.GenerateContent "gemini-2.5-flash" "cats"]
  end.
Proof.
  apply (generateOntology_logs_what_it_rejects outside0 "key" "cats" empty_heap).
  discriminate.
Defined.

Lemma generateOntology_numbers_the_edges_witness :
  (∃ h' g,
     GeminiService.generateOntology outside1 "key" "cats" empty_heap
       = ([GeminiService.NewGoogleGenAI "key";
           GeminiService.GenerateContent "gemini-2.5-flash" "cats"], h', inr g) ∧
     nodes g = seq (length (hnodes empty_heap)) 2 ∧
     node_at h' <$> nodes g = [plain "a" "A"; plain "b" "B"] ∧
     edges g = seq (length (hedges empty_heap)) 1 ∧
     eid ∘ edge_at h' <$> edges g = GeminiService.edge_id outside1 <$> seq 0 1 ∧
     NoDup (eid ∘ edge_at h' <$> edges g) ∧
     Forall2 (λ j e, elabel (edge_at h' e) = Json.jlabel j ∧
                     Json.stringify_endpoint h' (source (edge_at h' e)) = Json.jsource j ∧
                     Json.stringify_endpoint h' (target (edge_at h' e)) = Json.jtarget j)
             [Json.mkJEdge "" (Json.JStr "a") (Json.JStr "b") "is_a"] (edges g)) ∧
  GeminiService.generateOntology outside_null "key" "cats" empty_heap
    = ([GeminiService.NewGoogleGenAI "key";
        GeminiService.GenerateContent "gemini-2.5-flash" "cats";
        GeminiService.ConsoleError (type_error (GeminiService.PropertyOfNull "edges"))],
       empty_heap, inl (type_error (GeminiService.PropertyOfNull "edges"))) ∧
  GeminiService.generateOntology outside_number "key" "cats" empty_heap
    = ([GeminiService.NewGoogleGenAI "key";
        GeminiService.GenerateContent "gemini-2.5-flash" "cats";
        GeminiService.ConsoleError (type_error (GeminiService.NotAFunction "map"))],
       empty_heap, inl (type_error (GeminiService.NotAFunction "map"))).
Proof.
  split_and!.
  - apply (generateOntology_numbers_the_edges outside1 "key" "cats" empty_heap "{...}"
             answer_ab); [discriminate | reflexivity | discriminate | reflexivity].
  - apply (generateOntology_numbers_the_edges outside_null "key" "cats" empty_heap "null"
             GeminiService.DataNull); [discriminate | reflexivity | discriminate | reflexivity].
  - apply (generateOntology_numbers_the_edges outside_number "key" "cats" empty_heap "{...}"
             (GeminiService.DataValue (Some [plain "a" "A"]) GeminiService.EdgesOther));
      [discriminate | reflexivity | discriminate | reflexivity].
Defined.

Lemma reconcile_takes_position_of_namesake_witness :
  let h := heap_ac ticked_ab.1 in
  let sim := the_simulation ticked_ab.2 in
  let g := graph_ac ticked_ab.1 in
  ∃ n',
    nodes (reconcile h (Some sim) g).2 !! 0 = Some n' ∧
    length (hnodes h) ≤ n' ∧
    id (node_at (reconcile h (Some sim) g).1 n') = id (node_at h 4) ∧
    label (node_at (reconcile h (Some sim) g).1 n') = label (node_at h 4) ∧
    x (node_at (reconcile h (Some sim) g).1 n') = x (node_at h 2) ∧
    y (node_at (reconcile h (Some sim) g).1 n') = y (node_at h 2) ∧
    vx (node_at (reconcile h (Some sim) g).1 n')
      = (if vx (node_at h 2) is Some _ then vx (node_at h 2) else vx (node_at h 4)) ∧
    vy (node_at (reconcile h (Some sim) g).1 n')
      = (if vy (node_at h 2) is Some _ then vy (node_at h 2) else vy (node_at h 4)).
Proof.
  intros h sim g.
  apply (reconcile_takes_position_of_namesake h sim g 0 4 2).
  - intros r Hr. vm_compute in Hr. vm_compute.
    repeat (apply elem_of_cons in Hr as [->|Hr]); [lia | lia |].
    by apply elem_of_nil in Hr.
  - vm_compute. apply NoDup_cons. split.
    + intros Hin. apply elem_of_cons in Hin as [Hin|Hin]; [discriminate|].
      by apply elem_of_nil in Hin.
    + apply NoDup_singleton.
  - vm_compute. reflexivity.
  - vm_compute. apply list_elem_of_here.
  - vm_compute. reflexivity.
Defined.

Lemma update_then_clean_export_keeps_graph_witness :
  let h := heap_ac ticked_ab.1 in
  let g := graph_ac ticked_ab.1 in
  Forall2 (λ n c, id c = id (node_at h n) ∧ label c = label (node_at h n) ∧
                  type c = type (node_at h n) ∧
                  description c = description (node_at h n))
          (nodes g) (cleanNodes (outcome updated_ac).1 (getGraph (outcome updated_ac).2)) ∧
  Forall2 (λ e c, eid c = eid (edge_at h e) ∧ elabel c = elabel (edge_at h e) ∧
                  source c = EpId (endpoint_id h (source (edge_at h e))) ∧
                  target c = EpId (endpoint_id h (target (edge_at h e))))
          (edges g) (cleanEdges (outcome updated_ac).1 (getGraph (outcome updated_ac).2)).
Proof.
  intros h g.
  apply (update_then_clean_export_keeps_graph h ticked_ab.2 g
           (outcome updated_ac).1 (outcome updated_ac).2).
  - vm_compute. reflexivity.
  - intros sim n Hsim Hn. vm_compute in Hsim. injection Hsim as <-.
    vm_compute. simpl in Hn.
    repeat (apply elem_of_cons in Hn as [->|Hn]); [lia | lia |].
    by apply elem_of_nil in Hn.
  - vm_compute. reflexivity.
Defined.

End MoreWitnesses.

Section AcceptWitness.
Import D3 GraphCanvas App AppEdit Integrity Examples MoreExamples.

Lemma update_accepts_closed_graph_witness :
  ∃ h' st' sim,
    update (heap_ac ticked_ab.1) ticked_ab.2 (graph_ac ticked_ab.1) = Completed h' st' ∧
    GraphCanvas.graph st' = graph_ac ticked_ab.1 ∧
    length (nodes (activeGraph st')) = length (nodes (graph_ac ticked_ab.1)) ∧
    length (edges (activeGraph st')) = length (edges (graph_ac ticked_ab.1)) ∧
    simulationRef st' = Some sim ∧
    sim_nodes sim = nodes (activeGraph st') ∧
    sim_links sim = edges (activeGraph st') ∧
    running sim = true ∧
    scene st' = drawn_scene (activeGraph st').
Proof.
  apply (update_accepts_closed_graph (heap_ac ticked_ab.1) ticked_ab.2 (graph_ac ticked_ab.1)).
  - vm_compute. reflexivity.
  - intros sim n Hsim Hn. vm_compute in Hsim. injection Hsim as <-.
    vm_compute. simpl in Hn.
    repeat (apply elem_of_cons in Hn as [->|Hn]); [lia | lia |].
    by apply elem_of_nil in Hn.
  - intros e He. vm_compute in He. apply elem_of_cons in He as [->|He];
      [|by apply elem_of_nil in He].
    vm_compute. split; [apply list_elem_of_here | apply list_elem_of_further, list_elem_of_here].
Defined.

End AcceptWitness.
